(** * A shallow embedding of the IMAP COPY handler [onCopy]
    (src/helpers/imap/on-copy.js), on the local-storage path (no worker
    pool, [this.wsp] unset).

    The account storage is a record of three tables: [Messages] and
    [Mailboxes] are lists of rows in rowid order, [Attachments] is keyed by
    its primary key [hash].  Every collaborator whose behaviour is not part
    of the handler (session refresh, quota lookups, the lock helpers, the
    storage engine's fault behaviour, ObjectId generation, the clock and
    [getAttachments]) is an explicit environment [Env]; every effect is
    recorded in a log of [Event]s, so that the order and number of calls
    can be stated. *)

From stdpp Require Import base list gmap strings.
From Stdlib Require Import ZArith Lia Sorting.Sorted Sorting.Permutation.

Open Scope Z_scope.

(** ** Data model *)

(** A row of the [Messages] table; the fields the handler reads or writes. *)
Record Message := mkMessage {
  m_id : Z;
  m_mailbox : Z;
  m_uid : Z;
  m_size : Z;
  m_magic : Z;
  m_mimeTree : list string;
  m_exp : Z;
  m_rdate : Z;
  m_modseq : Z;
  m_junk : bool;
  m_remoteAddress : string;
  m_transaction : string;
  m_copied : bool
}.

(** A row of the [Mailboxes] table.  [mb_retention] is [Some r] when the
    stored value is a number and [None] otherwise. *)
Record Mailbox := mkMailbox {
  mb_id : Z;
  mb_path : string;
  mb_uidNext : Z;
  mb_uidValidity : Z;
  mb_modifyIndex : Z;
  mb_retention : option Z;
  mb_specialUse : string
}.

(** A row of the [Attachments] table (its key, [hash], is the map key). *)
Record Attachment := mkAttachment {
  a_counter : Z;
  a_magic : Z;
  a_counterUpdated : Z
}.

Record DB := mkDB {
  Messages : list Message;
  Attachments : gmap string Attachment;
  Mailboxes : list Mailbox
}.

(** Errors: an [IMAPError] carries its message key and [imapResponse]. *)
Inductive Err :=
  | IMAPError (msg : string) (imapResponse : string)
  | StorageError (code : string)
  | LockError (code : string).

Record Lock := mkLock { lock_success : bool }.

Record Session := mkSession { remoteAddress : string }.

(** [update.destination] and [update.messages] (the UID list of the
    command, empty when no range is given). *)
Record Update := mkUpdate { destination : string; messages : list Z }.

(** Notifier entries pushed per copied row. *)
Record Entry := mkEntry {
  e_command : string;
  e_uid : Z;
  e_mailbox : Z;
  e_message : Z
}.

(** The response handed to [fn(null, true, response)]. *)
Record CopyResponse := mkCopyResponse {
  uidValidity : Z;
  sourceUid : list Z;
  destinationUid : list Z
}.

(** ** Storage statements *)

(** The statements the handler prepares and runs against the storage. *)
Inductive Stmt :=
  | SInsertMessage (m : Message)
  | SUpdateAttachments (hashes : list string) (counter magic : Z) (ts : Z)
  | SMarkCopied (ids : list Z)
  | SSetUidNext (mailbox : Z) (uidNext : Z).

Definition set_copied (ids : list Z) (m : Message) : Message :=
  if bool_decide (m_id m ∈ ids) then
    mkMessage (m_id m) (m_mailbox m) (m_uid m) (m_size m) (m_magic m)
      (m_mimeTree m) (m_exp m) (m_rdate m) (m_modseq m) (m_junk m)
      (m_remoteAddress m) (m_transaction m) true
  else m.

Definition set_uidNext (id v : Z) (mb : Mailbox) : Mailbox :=
  if bool_decide (mb_id mb = id) then
    mkMailbox (mb_id mb) (mb_path mb) v (mb_uidValidity mb)
      (mb_modifyIndex mb) (mb_retention mb) (mb_specialUse mb)
  else mb.

(** [UPDATE Attachments SET counter = counter + c, magic = magic + g,
    counterUpdated = ts WHERE hash IN hashes]. *)
Definition inc_attachment (hashes : list string) (c g ts : Z)
    (h : string) (a : Attachment) : option Attachment :=
  if bool_decide (h ∈ hashes) then
    Some (mkAttachment (a_counter a + c) (a_magic a + g) ts)
  else Some a.

(** One statement on the storage; an insert whose [_id] is taken violates
    the primary key. *)
Definition exec_stmt (s : Stmt) (db : DB) : Err + DB :=
  match s with
  | SInsertMessage m =>
      if existsb (fun r => m_id r =? m_id m) (Messages db)
      then inl (StorageError "SQLITE_CONSTRAINT_PRIMARYKEY")
      else inr (mkDB (Messages db ++ [m]) (Attachments db) (Mailboxes db))
  | SUpdateAttachments hs c g ts =>
      inr (mkDB (Messages db) (map_imap (inc_attachment hs c g ts) (Attachments db))
             (Mailboxes db))
  | SMarkCopied ids =>
      inr (mkDB (map (set_copied ids) (Messages db)) (Attachments db) (Mailboxes db))
  | SSetUidNext id v =>
      inr (mkDB (Messages db) (Attachments db) (map (set_uidNext id v) (Mailboxes db)))
  end.

(** ** The SELECT of the source rows *)

(** [condition]: the owning mailbox, and [uid] only when
    [update.messages.length > 0] ([tools.checkRangeQuery] matches the UIDs
    of the list). *)
Record Condition := mkCondition { c_mailbox : Z; c_uid : option (list Z) }.

Definition build_condition (mailbox : Mailbox) (update : Update) : Condition :=
  mkCondition (mb_id mailbox)
    (if bool_decide (0 < length (messages update))%nat
     then Some (messages update) else None).

Definition matches (c : Condition) (m : Message) : bool :=
  (m_mailbox m =? c_mailbox c) &&
  match c_uid c with
  | None => true
  | Some uids => existsb (Z.eqb (m_uid m)) uids
  end.

(** [sort: 'uid']: ascending UID order (an insertion sort). *)
Fixpoint insert_by_uid (m : Message) (l : list Message) : list Message :=
  match l with
  | [] => [m]
  | r :: l' => if m_uid m <=? m_uid r then m :: r :: l' else r :: insert_by_uid m l'
  end.

Fixpoint sort_by_uid (l : list Message) : list Message :=
  match l with
  | [] => []
  | m :: l' => insert_by_uid m (sort_by_uid l')
  end.

Definition select_messages (db : DB) (c : Condition) : list Message :=
  sort_by_uid (filter (fun m => matches c m = true) (Messages db)).

Definition find_mailbox_by_id (db : DB) (id : Z) : option Mailbox :=
  find (fun mb => mb_id mb =? id) (Mailboxes db).

Definition find_mailbox_by_path (db : DB) (path : string) : option Mailbox :=
  find (fun mb => String.eqb (mb_path mb) path) (Mailboxes db).

(** ** Effects *)

(** The observable calls of one invocation, in order. *)
Inductive Event :=
  | EvRefreshSession
  | EvQuotaCheck (delta : Z)
  | EvAcquireLock
  | EvSelect
  | EvBegin
  | EvStmt (s : Stmt)
  | EvCommit
  | EvRollback
  | EvReleaseLock
  | EvFatal (e : Err)
  | EvUpdateStorageUsed
  | EvAddEntries (entries : list Entry)
  | EvFire (path : string).

(** The outcomes of the collaborators.  [env_isOverQuota] is indexed by the
    byte delta it is asked about; [env_fault n] is the failure, if any, of
    the [n]-th statement run on the storage; [env_objectId n] is the [n]-th
    generated [ObjectId]. *)
Record Env := mkEnv {
  env_refreshSession : option Err;
  env_isOverQuota : Z -> Err + bool;
  env_acquireLock : Err + Lock;
  env_select : option Err;
  env_begin : option Err;
  env_fault : nat -> option Err;
  env_commit : option Err;
  env_releaseLock : option Err;
  env_updateStorageUsed : option Err;
  env_addEntries : option Err;
  env_objectId : nat -> Z;
  env_now : Z;
  env_getAttachments : list string -> list string
}.

Record St := mkSt { st_db : DB; st_oid : nat; st_nstmt : nat }.

(** State, exceptions and a log: a thrown error keeps the state reached so
    far, as a JavaScript [throw] does. *)
Definition M (A : Type) : Type := St -> (Err + A) * St * list Event.

Definition ret {A} (a : A) : M A := fun st => (inr a, st, []).

Definition bind {A B} (m : M A) (k : A -> M B) : M B := fun st =>
  match m st with
  | (inl e, s1, l1) => (inl e, s1, l1)
  | (inr a, s1, l1) => let '(r, s2, l2) := k a s1 in (r, s2, l1 ++ l2)
  end.

Notation "'let*' x := m 'in' k" := (bind m (fun x => k))
  (at level 200, x name, m at level 100, right associativity).
Notation "'let*' ' p := m 'in' k" := (bind m (fun v => match v with p => k end))
  (at level 200, p pattern, m at level 100, right associativity).

Definition throw {A} (e : Err) : M A := fun st => (inl e, st, []).

Definition log (ev : Event) : M unit := fun st => (inr tt, st, [ev]).

Definition get_db : M DB := fun st => (inr (st_db st), st, []).

(** [try { m } catch (err) { ... }]: the outcome becomes a value. *)
Definition try_ {A} (m : M A) : M (Err + A) := fun st =>
  let '(r, s, l) := m st in (inr r, s, l).

Definition raise_opt (o : option Err) : M unit :=
  match o with Some e => throw e | None => ret tt end.

Definition raise_sum {A} (x : Err + A) : M A :=
  match x with inl e => throw e | inr a => ret a end.

Section Model.

Variable E : Env.

Definition refreshSession : M unit :=
  let* _ := log EvRefreshSession in raise_opt (env_refreshSession E).

Definition isOverQuota (delta : Z) : M bool :=
  let* _ := log (EvQuotaCheck delta) in raise_sum (env_isOverQuota E delta).

Definition acquireLock : M Lock :=
  let* _ := log EvAcquireLock in raise_sum (env_acquireLock E).

Definition releaseLock : M unit :=
  let* _ := log EvReleaseLock in raise_opt (env_releaseLock E).

(** [new mongoose.Types.ObjectId()] *)
Definition newObjectId : M Z := fun st =>
  (inr (env_objectId E (st_oid st)),
   mkSt (st_db st) (S (st_oid st)) (st_nstmt st), []).

(** [session.db.prepare(sql.query).all(sql.values)] for the SELECT. *)
Definition select (c : Condition) : M (list Message) :=
  let* _ := log EvSelect in
  let* _ := raise_opt (env_select E) in
  let* db := get_db in
  ret (select_messages db c).

(** [session.db.prepare(sql.query).run(sql.values)] *)
Definition run_stmt (s : Stmt) : M unit := fun st =>
  let n := st_nstmt st in
  match env_fault E n with
  | Some e => (inl e, mkSt (st_db st) (st_oid st) (S n), [EvStmt s])
  | None =>
      match exec_stmt s (st_db st) with
      | inl e => (inl e, mkSt (st_db st) (st_oid st) (S n), [EvStmt s])
      | inr db' => (inr tt, mkSt db' (st_oid st) (S n), [EvStmt s])
      end
  end.

(** [session.db.transaction(body).immediate(...)]: BEGIN IMMEDIATE, the
    body, COMMIT; a throw in the body or a failed COMMIT rolls the storage
    back to its state at BEGIN and rethrows. *)
Definition transaction {A} (body : M A) : M A := fun st =>
  match env_begin E with
  | Some e => (inl e, st, [EvBegin])
  | None =>
      let '(r, s1, l1) := body st in
      let rolled := mkSt (st_db st) (st_oid s1) (st_nstmt s1) in
      match r with
      | inl e => (inl e, rolled, EvBegin :: l1 ++ [EvRollback])
      | inr a =>
          match env_commit E with
          | Some e => (inl e, rolled, EvBegin :: l1 ++ [EvRollback])
          | None => (inr a, s1, EvBegin :: l1 ++ [EvCommit])
          end
      end
  end.

(** The JavaScript locals of [onCopy] that the transaction body updates. *)
Record Locals := mkLocals {
  v_sourceIds : list Z;
  v_sourceUid : list Z;
  v_destinationUid : list Z;
  v_entries : list Entry;
  v_copiedMessages : Z;
  v_copiedStorage : Z;
  v_uidNext : Z
}.

Definition retention_exp (target : Mailbox) : Z :=
  if match mb_retention target with
     | Some r => negb (r =? 0)
     | None => false
     end
  then 1 else 0.

(** Lines 167-186: the source row rewritten in place as the new row. *)
Definition copy_row (session : Session) (mailbox target : Mailbox)
    (_id uidNext : Z) (m : Message) : Message :=
  mkMessage _id (mb_id target) uidNext (m_size m) (m_magic m) (m_mimeTree m)
    (retention_exp target)
    (env_now E + match mb_retention target with Some r => r | None => 0 end)
    (mb_modifyIndex mailbox)
    (String.eqb (mb_specialUse target) "\Junk")
    (remoteAddress session) "COPY" (m_copied m).

(** Lines 159-238: [for (const m of messages) { ... }]. *)
Fixpoint copy_rows (session : Session) (mailbox target : Mailbox)
    (ms : list Message) (L : Locals) : M Locals :=
  match ms with
  | [] => ret L
  | m :: rest =>
      let* _id := newObjectId in
      let m' := copy_row session mailbox target _id (v_uidNext L) m in
      let* _ := run_stmt (SInsertMessage m') in
      let attachmentIds := env_getAttachments E (m_mimeTree m') in
      let* _ :=
        if bool_decide (0 < length attachmentIds)%nat
        then run_stmt (SUpdateAttachments attachmentIds 1 (m_magic m') (env_now E))
        else ret tt in
      copy_rows session mailbox target rest
        (mkLocals (v_sourceIds L ++ [m_id m])
           (m_uid m :: v_sourceUid L)
           (v_uidNext L :: v_destinationUid L)
           (v_entries L ++ [mkEntry "EXISTS" (m_uid m') (mb_id target) _id])
           (v_copiedMessages L + 1)
           (v_copiedStorage L + m_size m)
           (v_uidNext L + 1))
  end.

(** Lines 158-275: the transaction body. *)
Definition copy_batch (session : Session) (mailbox target : Mailbox)
    (ms : list Message) (L : Locals) : M Locals :=
  let* L' := copy_rows session mailbox target ms L in
  let* _ := run_stmt (SMarkCopied (v_sourceIds L')) in
  let* _ := run_stmt (SSetUidNext (mb_id target) (v_uidNext L')) in
  ret L'.

Definition initial_locals (target : Mailbox) : Locals :=
  mkLocals [] [] [] [] 0 0 (mb_uidNext target).

(** Lines 131-276, after the lock is taken. *)
Definition locked_body (session : Session) (mailbox target : Mailbox)
    (update : Update) : M Locals :=
  let* ms := select (build_condition mailbox update) in
  if bool_decide (0 < length ms)%nat
  then transaction (copy_batch session mailbox target ms (initial_locals target))
  else ret (initial_locals target).

(** Lines 128-279: the guarded section; yields the [lock] variable and the
    caught error, if any. *)
Definition guarded (session : Session) (mailbox target : Mailbox)
    (update : Update) : M (option Lock * (Err + Locals)) :=
  let* r1 := try_ acquireLock in
  match r1 with
  | inl e => ret (None, inl e)
  | inr lock =>
      let* r2 := try_ (locked_body session mailbox target update) in
      ret (Some lock, r2)
  end.

(** Lines 281-290: release the lock, then rethrow. *)
Definition release_if (lockv : option Lock) : M unit :=
  match lockv with
  | Some lock =>
      if lock_success lock then
        let* r := try_ releaseLock in
        match r with inl e => log (EvFatal e) | inr _ => ret tt end
      else ret tt
  | None => ret tt
  end.

Definition finish_locked (lockv : option Lock) (r : Err + Locals) : M Locals :=
  let* _ := release_if lockv in raise_sum r.

(** Lines 298-335: the post-flight quota check, not awaited. *)
Definition post_quota (copiedStorage : Z) : M unit :=
  let* _ := log (EvQuotaCheck copiedStorage) in
  match env_isOverQuota E copiedStorage with
  | inr true => log (EvFatal (IMAPError "IMAP_MAILBOX_MESSAGE_EXCEEDS_QUOTA" "OVERQUOTA"))
  | inr false => ret tt
  | inl e => log (EvFatal e)
  end.

(** Lines 292-378. *)
Definition post_commit (update : Update) (target : Mailbox) (L : Locals)
    : M CopyResponse :=
  let* _ :=
    if (0 <? v_copiedMessages L) && (0 <? v_copiedStorage L)
    then post_quota (v_copiedStorage L) else ret tt in
  let* r := try_ (let* _ := log EvUpdateStorageUsed in
                  raise_opt (env_updateStorageUsed E)) in
  let* _ := match r with inl e => log (EvFatal e) | inr _ => ret tt end in
  let* _ :=
    if bool_decide (0 < length (v_entries L))%nat then
      let* _ := log (EvAddEntries (v_entries L)) in
      let* _ := raise_opt (env_addEntries E) in
      log (EvFire (destination update))
    else ret tt in
  ret (mkCopyResponse (mb_uidValidity target) (v_sourceUid L) (v_destinationUid L)).

(** Lines 74-126: session refresh, pre-flight quota, both mailboxes. *)
Definition validate (session : Session) (mailboxId : Z) (update : Update)
    : M (Mailbox * Mailbox) :=
  let* _ := refreshSession in
  let* over := isOverQuota 0 in
  if over then throw (IMAPError "IMAP_MAILBOX_OVER_QUOTA" "OVERQUOTA") else
  let* db := get_db in
  match find_mailbox_by_id db mailboxId with
  | None => throw (IMAPError "IMAP_MAILBOX_DOES_NOT_EXIST" "NONEXISTENT")
  | Some mailbox =>
      match find_mailbox_by_path db (destination update) with
      | None => throw (IMAPError "IMAP_MAILBOX_DOES_NOT_EXIST" "TRYCREATE")
      | Some target => ret (mailbox, target)
      end
  end.

(** The body of the outer [try] of [onCopy] (lines 74-378): [inr] is the
    response passed to [fn(null, true, ...)], [inl err] the error the outer
    [catch] hands to [fn] through [refineAndLogError]. *)
Definition onCopy (session : Session) (mailboxId : Z) (update : Update)
    : M CopyResponse :=
  let* '(mailbox, target) := validate session mailboxId update in
  let* '(lockv, r) := guarded session mailbox target update in
  let* L := finish_locked lockv r in
  post_commit update target L.

End Model.

(** ** A concrete account: mailbox A (id 1, UIDs 5, 7, 9) and mailbox B
    (id 2, [uidNext = 100]) *)

Definition msg (id uid size : Z) (tree : list string) : Message :=
  mkMessage id 1 uid size 3 tree 0 0 0 false "" "APPEND" false.

Definition boxA : Mailbox := mkMailbox 1 "A" 10 111 4 None "".
Definition boxB : Mailbox := mkMailbox 2 "B" 100 222 0 (Some 0) "\Junk".

Definition db0 : DB :=
  mkDB [msg 11 9 10 ["h1"; "h1"]; msg 12 5 20 ["h2"]; msg 13 7 30 []]
    (<["h1" := mkAttachment 1 3 0]> (<["h2" := mkAttachment 1 3 0]> ∅))
    [boxA; boxB].

Definition st0 : St := mkSt db0 0 0.

(** All collaborators succeed; [getAttachments] returns the hashes of the
    tree as they occur. *)
Definition env_ok : Env :=
  mkEnv None (fun _ => inr false) (inr (mkLock true)) None None (fun _ => None)
    None None None None (fun n => 1000 + Z.of_nat n) 50 (fun t => t).

Definition sess0 : Session := mkSession "192.0.2.1".

Definition copy_all_AB : Update := mkUpdate "B" [].

Definition run0 := onCopy env_ok sess0 1 copy_all_AB st0.

(** ** Derived notions used in the statements *)

Fixpoint zseq (start : Z) (n : nat) : list Z :=
  match n with
  | O => []
  | S n' => start :: zseq (start + 1) n'
  end.

(** Does message [m] reference attachment [h] (per [getAttachments])? *)
Definition refs (E : Env) (h : string) (m : Message) : bool :=
  bool_decide (h ∈ env_getAttachments E (m_mimeTree m)).

Definition count_refs (E : Env) (h : string) (ms : list Message) : Z :=
  fold_right (fun m acc => (if refs E h m then 1 else 0) + acc) 0 ms.

Definition magic_refs (E : Env) (h : string) (ms : list Message) : Z :=
  fold_right (fun m acc => (if refs E h m then m_magic m else 0) + acc) 0 ms.

(** The expected [Attachments] row [h] after copying the rows [ms]. *)
Definition attachment_after (E : Env) (ms : list Message) (h : string)
    (a : Attachment) : Attachment :=
  mkAttachment (a_counter a + count_refs E h ms) (a_magic a + magic_refs E h ms)
    (if bool_decide (0 < count_refs E h ms) then env_now E else a_counterUpdated a).

Definition is_uidNext_write (ev : Event) : bool :=
  match ev with EvStmt (SSetUidNext _ _) => true | _ => false end.

(** [E] with another outcome of [releaseLock]. *)
Definition with_release (E : Env) (x : option Err) : Env :=
  mkEnv (env_refreshSession E) (env_isOverQuota E) (env_acquireLock E)
    (env_select E) (env_begin E) (env_fault E) (env_commit E) x
    (env_updateStorageUsed E) (env_addEntries E) (env_objectId E) (env_now E)
    (env_getAttachments E).

(** [E] with other outcomes of the post-flight quota check (any delta but
    0) and of [updateStorageUsed]. *)
Definition with_post (E : Env) (q : Z -> Err + bool) (u : option Err) : Env :=
  mkEnv (env_refreshSession E) (fun d => if d =? 0 then env_isOverQuota E 0 else q d)
    (env_acquireLock E) (env_select E) (env_begin E) (env_fault E) (env_commit E)
    (env_releaseLock E) u (env_addEntries E) (env_objectId E) (env_now E)
    (env_getAttachments E).


(** The rows the loop inserts for the source rows [ms], the first taking
    the [oid]-th generated id and UID [u]. *)
Fixpoint copied_rows (E : Env) (session : Session) (mailbox target : Mailbox)
    (oid : nat) (u : Z) (ms : list Message) : list Message :=
  match ms with
  | [] => []
  | m :: rest =>
      copy_row E session mailbox target (env_objectId E oid) u m
        :: copied_rows E session mailbox target (S oid) (u + 1) rest
  end.

(** The notifier entry of an inserted row. *)
Definition exists_entry (r : Message) : Entry :=
  mkEntry "EXISTS" (m_uid r) (m_mailbox r) (m_id r).

Definition total_size (ms : list Message) : Z :=
  fold_right (fun m acc => m_size m + acc) 0 ms.

(** The UIDs of the rows of mailbox [id]. *)
Definition uids_in (db : DB) (id : Z) : list Z :=
  map m_uid (List.filter (fun m => m_mailbox m =? id) (Messages db)).

(** Every mailbox holds distinct UIDs, all below its [uidNext]. *)
Definition uid_invariant (db : DB) : bool :=
  forallb (fun mb =>
    bool_decide (NoDup (uids_in db (mb_id mb))) &&
    forallb (fun u => u <? mb_uidNext mb) (uids_in db (mb_id mb))) (Mailboxes db).

(** [onCopy] up to the release of the lock and the rethrow (lines
    74-290): yields the destination and the locals the post-commit phase
    reads. *)
Definition through_release (E : Env) (session : Session) (mailboxId : Z)
    (update : Update) : M (Mailbox * Locals) :=
  let* '(mailbox, target) := validate E session mailboxId update in
  let* '(lockv, r) := guarded E session mailbox target update in
  let* L := finish_locked E lockv r in
  ret (target, L).

(** Events that touch the storage or the lock. *)
Definition guarded_event (ev : Event) : bool :=
  match ev with
  | EvAcquireLock | EvSelect | EvBegin | EvStmt _ | EvCommit | EvRollback
  | EvReleaseLock => true
  | _ => false
  end.

Definition is_release (ev : Event) : bool :=
  match ev with EvReleaseLock => true | _ => false end.

(** How many times [releaseLock] is called in a log. *)
Definition release_count (l : list Event) : nat := length (List.filter is_release l).

(** A computation that leaves the state alone and neither touches the
    storage nor the lock. *)
Definition quiet {A} (m : M A) : Prop :=
  forall st r st' l, m st = (r, st', l) ->
    st' = st /\ Forall (fun ev => guarded_event ev = false) l.

(** ** More runs on the concrete account *)

(** The response of [run0]. *)
Definition resp0 : CopyResponse := mkCopyResponse 222 [9; 7; 5] [102; 101; 100].

(** A destination whose retention is the number -1. *)
Definition boxN : Mailbox := mkMailbox 3 "N" 100 333 0 (Some (-1)) "".

Definition dbN : DB := mkDB (Messages db0) (Attachments db0) [boxA; boxN].

Definition copy_7_AN : Update := mkUpdate "N" [7].

Definition runN := onCopy env_ok sess0 1 copy_7_AN (mkSt dbN 0 0).

Definition respN : CopyResponse := mkCopyResponse 333 [7] [100].

(** The second statement of the batch fails. *)
Definition env_fault2 : Env :=
  mkEnv None (fun _ => inr false) (inr (mkLock true)) None None
    (fun n => if Nat.eqb n 1 then Some (StorageError "SQLITE_FULL") else None)
    None None None None (fun n => 1000 + Z.of_nat n) 50 (fun t => t).

Definition run_fault := onCopy env_fault2 sess0 1 copy_all_AB st0.

(** [releaseLock] fails. *)
Definition env_relfail : Env := with_release env_ok (Some (LockError "ELOCKLOST")).

Definition run_relfail := onCopy env_relfail sess0 1 copy_all_AB st0.

(** The account is over quota before the copy. *)
Definition env_overquota : Env :=
  mkEnv None (fun d => inr (d =? 0)) (inr (mkLock true)) None None (fun _ => None)
    None None None None (fun n => 1000 + Z.of_nat n) 50 (fun t => t).

(** The lock is taken but not held ([lock.success] is false). *)
Definition env_nolock : Env :=
  mkEnv None (fun _ => inr false) (inr (mkLock false)) None None (fun _ => None)
    None None None None (fun n => 1000 + Z.of_nat n) 50 (fun t => t).

(** Taking the lock fails. *)
Definition env_lockfail : Env :=
  mkEnv None (fun _ => inr false) (inl (LockError "ETIMEOUT")) None None (fun _ => None)
    None None None None (fun n => 1000 + Z.of_nat n) 50 (fun t => t).

(** [COPY 42 B] from [A]: no row of [A] has UID 42. *)
Definition copy_42_AB : Update := mkUpdate "B" [42].

(** [COPY 5,9 B] from [A]. *)
Definition copy_59_AB : Update := mkUpdate "B" [9; 5].

(** ** Monad lemmas *)

Lemma bind_inv {A B} (m : M A) (k : A -> M B) st r st' l :
  bind m k st = (r, st', l) ->
  (exists e, m st = (inl e, st', l) /\ r = inl e) \/
  (exists a s1 l1 l2, m st = (inr a, s1, l1) /\ k a s1 = (r, st', l2) /\ l = l1 ++ l2).
Proof.
  unfold bind. destruct (m st) as [[[e|a] s1] l1].
  - intros H; inversion H; subst; eauto.
  - destruct (k a s1) as [[r2 s2] l2] eqn:Hk. intros H; inversion H; subst.
    right; eauto 10.
Qed.

Lemma bind_eq {A B} (m : M A) (k : A -> M B) st a s1 l1 :
  m st = (inr a, s1, l1) ->
  bind m k st = (fst (fst (k a s1)), snd (fst (k a s1)), l1 ++ snd (k a s1)).
Proof.
  intros H. unfold bind. rewrite H. destruct (k a s1) as [[r2 s2] l2]. reflexivity.
Qed.

Lemma quiet_ret {A} (a : A) : quiet (ret a).
Proof. intros st r st' l H; inversion H; subst; auto. Qed.

Lemma quiet_throw {A} e : quiet (@throw A e).
Proof. intros st r st' l H; inversion H; subst; auto. Qed.

Lemma quiet_log ev : guarded_event ev = false -> quiet (log ev).
Proof. intros Hg st r st' l H; inversion H; subst; auto. Qed.

Lemma quiet_get_db : quiet get_db.
Proof. intros st r st' l H; inversion H; subst; auto. Qed.

Lemma quiet_raise_opt o : quiet (raise_opt o).
Proof. destruct o; [apply quiet_throw | apply quiet_ret]. Qed.

Lemma quiet_raise_sum {A} (x : Err + A) : quiet (raise_sum x).
Proof. destruct x; [apply quiet_throw | apply quiet_ret]. Qed.

Lemma quiet_bind {A B} (m : M A) (k : A -> M B) :
  quiet m -> (forall a, quiet (k a)) -> quiet (bind m k).
Proof.
  intros Hm Hk st r st' l H.
  apply bind_inv in H as [(e & H1 & ->) | (a & s1 & l1 & l2 & H1 & H2 & ->)].
  - exact (Hm _ _ _ _ H1).
  - destruct (Hm _ _ _ _ H1) as [-> F1]. destruct (Hk a _ _ _ _ H2) as [-> F2].
    split; [reflexivity | apply Forall_app; auto].
Qed.

Lemma quiet_try {A} (m : M A) : quiet m -> quiet (try_ m).
Proof.
  intros Hm st r st' l H. unfold try_ in H.
  destruct (m st) as [[r0 s0] l0] eqn:E0. inversion H; subst. eauto.
Qed.

Create HintDb quiet.
#[local] Hint Resolve quiet_ret quiet_throw quiet_get_db quiet_raise_opt
  quiet_raise_sum quiet_bind quiet_try : quiet.
#[local] Hint Extern 1 (quiet (log _)) => apply quiet_log; reflexivity : quiet.
#[local] Hint Extern 2 (quiet (match ?x with _ => _ end)) => destruct x : quiet.
#[local] Hint Extern 2 (quiet (if ?x then _ else _)) => destruct x : quiet.
#[local] Hint Extern 3 (forall _, quiet _) => intro : quiet.

Lemma quiet_validate E sess mid upd : quiet (validate E sess mid upd).
Proof. unfold validate, refreshSession, isOverQuota. eauto 20 with quiet. Qed.

Lemma quiet_post_commit E upd tg L : quiet (post_commit E upd tg L).
Proof. unfold post_commit, post_quota. eauto 20 with quiet. Qed.

Ltac binv H Hm Hk :=
  apply bind_inv in H as
    [(?e & Hm & ?Hr) | (?a & ?s & ?l1 & ?l2 & Hm & Hk & ?Hl)]; subst.

Definition is_stmt (ev : Event) : bool :=
  match ev with EvStmt _ => true | _ => false end.

Lemma run_stmt_log E s st r st' l :
  run_stmt E s st = (r, st', l) -> l = [EvStmt s].
Proof.
  unfold run_stmt. destruct (env_fault E (st_nstmt st)); [|destruct (exec_stmt s (st_db st))];
    intros H; inversion H; auto.
Qed.

Lemma newObjectId_inv E st r st' l :
  newObjectId E st = (r, st', l) ->
  r = inr (env_objectId E (st_oid st)) /\ st_db st' = st_db st /\ l = [].
Proof. unfold newObjectId. intros H; inversion H; auto. Qed.

Lemma copy_rows_log E sess mb tg ms : forall L st r st' l,
  copy_rows E sess mb tg ms L st = (r, st', l) -> Forall (fun ev => is_stmt ev = true) l.
Proof.
  induction ms as [|m ms IH]; intros L st r st' l H; simpl in H.
  - inversion H; subst; constructor.
  - binv H H1 H2; apply newObjectId_inv in H1 as (? & _ & ->); [constructor|].
    simpl. binv H2 H3 H4; apply run_stmt_log in H3; subst; [repeat constructor|].
    constructor; [reflexivity|].
    binv H4 H5 H6; case_bool_decide.
    + apply run_stmt_log in H5; subst; repeat constructor.
    + inversion H5.
    + apply run_stmt_log in H5; subst. constructor; [reflexivity|]. eauto.
    + inversion H5; subst. simpl. eauto.
Qed.

Lemma copy_batch_log E sess mb tg ms L st r st' l :
  copy_batch E sess mb tg ms L st = (r, st', l) -> Forall (fun ev => is_stmt ev = true) l.
Proof.
  unfold copy_batch. intros H. binv H H1 H2; [eapply copy_rows_log; eauto|].
  apply Forall_app; split; [eapply copy_rows_log; eauto|].
  binv H2 H3 H4; apply run_stmt_log in H3; subst; [repeat constructor|].
  constructor; [reflexivity|].
  binv H4 H5 H6; apply run_stmt_log in H5; subst; [repeat constructor|].
  inversion H6; subst. repeat constructor.
Qed.

Lemma transaction_cases {A} E (body : M A) st r st' l :
  transaction E body st = (r, st', l) ->
  (exists e, env_begin E = Some e /\ r = inl e /\ st' = st /\ l = [EvBegin]) \/
  (exists e l1, env_begin E = None /\ r = inl e /\ st_db st' = st_db st /\
     (exists r1 s1, body st = (r1, s1, l1)) /\ l = EvBegin :: l1 ++ [EvRollback]) \/
  (exists a l1, env_begin E = None /\ env_commit E = None /\
     body st = (inr a, st', l1) /\ r = inr a /\ l = EvBegin :: l1 ++ [EvCommit]).
Proof.
  unfold transaction. destruct (env_begin E) as [e|] eqn:Hb.
  - intros H; inversion H; subst. left; eauto.
  - destruct (body st) as [[[e|a] s1] l1] eqn:Hbody.
    + intros H; inversion H; subst. right; left.
      exists e, l1. repeat split; eauto.
    + destruct (env_commit E) as [e|] eqn:Hc; intros H; inversion H; subst.
      * right; left. exists e, l1. repeat split; eauto.
      * right; right. exists a, l1. repeat split; eauto.
Qed.

Lemma locked_body_cases E sess mb tg upd st r st' l :
  locked_body E sess mb tg upd st = (r, st', l) ->
  let ms := select_messages (st_db st) (build_condition mb upd) in
  (exists e, env_select E = Some e /\ r = inl e /\ st' = st /\ l = [EvSelect]) \/
  (env_select E = None /\ ms = [] /\ r = inr (initial_locals tg) /\ st' = st /\
     l = [EvSelect]) \/
  (env_select E = None /\ ms <> [] /\ exists lt,
     transaction E (copy_batch E sess mb tg ms (initial_locals tg)) st = (r, st', lt) /\
     l = EvSelect :: lt).
Proof.
  intros H ms. unfold locked_body, select, bind, log, raise_opt, get_db, ret, throw in H.
  destruct (env_select E) as [e|] eqn:Hs; simpl in H.
  - inversion H; subst. left; eauto.
  - fold ms in H. destruct ms as [|m ms'] eqn:Hms; simpl in H.
    + inversion H; subst. right; left; auto.
    + right; right. split; [reflexivity|]. split; [discriminate|].
      destruct (transaction E _ st) as [[r2 s2] l2] eqn:Ht.
      inversion H; subst. eexists; split; reflexivity.
Qed.

Lemma guarded_cases E sess mb tg upd st r st' l :
  guarded E sess mb tg upd st = (r, st', l) ->
  (exists e, env_acquireLock E = inl e /\ r = inr (None, inl e) /\ st' = st /\
     l = [EvAcquireLock]) \/
  (exists lock r2 l2, env_acquireLock E = inr lock /\ r = inr (Some lock, r2) /\
     locked_body E sess mb tg upd st = (r2, st', l2) /\ l = EvAcquireLock :: l2).
Proof.
  unfold guarded, try_, acquireLock, bind, log, raise_sum, ret, throw.
  destruct (env_acquireLock E) as [e|lock] eqn:Ha; simpl.
  - intros H; inversion H; subst. left. exists e. auto.
  - destruct (locked_body E sess mb tg upd st) as [[r2 s2] l2] eqn:Hl.
    intros H; inversion H; subst. right. exists lock, r2, l2.
    rewrite app_nil_r. auto.
Qed.

Definition release_log (E : Env) (lockv : option Lock) : list Event :=
  match lockv with
  | Some lock =>
      if lock_success lock then
        EvReleaseLock ::
          match env_releaseLock E with Some e => [EvFatal e] | None => [] end
      else []
  | None => []
  end.

Lemma finish_locked_inv E lockv r st r' st' l :
  finish_locked E lockv r st = (r', st', l) ->
  st' = st /\ r' = r /\ l = release_log E lockv.
Proof.
  unfold finish_locked, release_if, release_log, try_, releaseLock, bind, log,
    raise_opt, raise_sum, ret, throw.
  destruct lockv as [lock|]; [destruct (lock_success lock)|];
    [destruct (env_releaseLock E)| |];
    destruct r; simpl; intros H; inversion H; subst; auto.
Qed.

Lemma validate_inr E sess mid upd st mb tg st' l :
  validate E sess mid upd st = (inr (mb, tg), st', l) ->
  st' = st /\ env_refreshSession E = None /\ env_isOverQuota E 0 = inr false /\
  find_mailbox_by_id (st_db st) mid = Some mb /\
  find_mailbox_by_path (st_db st) (destination upd) = Some tg /\
  l = [EvRefreshSession; EvQuotaCheck 0].
Proof.
  unfold validate, refreshSession, isOverQuota, bind, log, raise_opt, raise_sum,
    get_db, ret, throw.
  destruct (env_refreshSession E); simpl; [intros H; inversion H|].
  destruct (env_isOverQuota E 0) as [e|[|]]; simpl; [intros H; inversion H..|].
  destruct (find_mailbox_by_id (st_db st) mid) eqn:H1; simpl; [|intros H; inversion H].
  destruct (find_mailbox_by_path (st_db st) (destination upd)) eqn:H2; simpl;
    intros H; inversion H; subst; auto 10.
Qed.

Lemma post_commit_inr E upd tg L st resp st' l :
  post_commit E upd tg L st = (inr resp, st', l) ->
  resp = mkCopyResponse (mb_uidValidity tg) (v_sourceUid L) (v_destinationUid L).
Proof.
  unfold post_commit, post_quota, try_, bind, log, raise_opt, ret, throw.
  destruct ((0 <? v_copiedMessages L) && (0 <? v_copiedStorage L));
    [destruct (env_isOverQuota E (v_copiedStorage L)) as [?|[|]]|];
    destruct (env_updateStorageUsed E); case_bool_decide;
    destruct (env_addEntries E); simpl; intros Hx; inversion Hx; auto.
Qed.

Lemma onCopy_success E sess mid upd st resp st' l :
  onCopy E sess mid upd st = (inr resp, st', l) ->
  exists mb tg lock,
    find_mailbox_by_id (st_db st) mid = Some mb /\
    find_mailbox_by_path (st_db st) (destination upd) = Some tg /\
    env_acquireLock E = inr lock /\
    let ms := select_messages (st_db st) (build_condition mb upd) in
    exists L st1 l1 post,
      resp = mkCopyResponse (mb_uidValidity tg) (v_sourceUid L) (v_destinationUid L) /\
      st_db st' = st_db st1 /\
      Forall (fun ev => guarded_event ev = false) post /\
      ((ms = [] /\ L = initial_locals tg /\ st1 = st /\
        l = [EvRefreshSession; EvQuotaCheck 0; EvAcquireLock; EvSelect]
              ++ release_log E (Some lock) ++ post) \/
       (ms <> [] /\
        copy_batch E sess mb tg ms (initial_locals tg) st = (inr L, st1, l1) /\
        l = [EvRefreshSession; EvQuotaCheck 0; EvAcquireLock; EvSelect; EvBegin]
              ++ l1 ++ EvCommit :: release_log E (Some lock) ++ post)).
Proof.
  unfold onCopy. intros H.
  binv H H1 H2; [discriminate|].
  destruct a as [mb tg].
  apply validate_inr in H1 as (-> & _ & _ & Hmb & Htg & ->).
  binv H2 H3 H4; [apply guarded_cases in H3 as [(? & _ & ? & _)|(? & ? & ? & _ & ? & _)];
                  discriminate|].
  destruct a as [lockv r2].
  binv H4 H5 H6; [discriminate|].
  apply finish_locked_inv in H5 as (-> & <- & ->).
  pose proof (post_commit_inr _ _ _ _ _ _ _ _ H6) as ->.
  destruct (quiet_post_commit _ _ _ _ _ _ _ _ H6) as [-> Hpost].
  apply guarded_cases in H3 as [(e & _ & Hr & _)|(lk & rr & ll & Hacq & Hr & Hlb & ->)];
    inversion Hr; subst.
  exists mb, tg, lk. split; [exact Hmb|]. split; [exact Htg|]. split; [exact Hacq|].
  apply locked_body_cases in Hlb as
    [(ee & _ & Hr2 & _)|[(_ & Hms & Hr2 & -> & ->)|(_ & Hms & lt & Ht & ->)]];
    [discriminate| |].
  - injection Hr2 as ->. exists (initial_locals tg), st, [], l3.
    split; [reflexivity|]. split; [reflexivity|]. split; [exact Hpost|].
    left. auto.
  - apply transaction_cases in Ht as
      [(ee & _ & Hr3 & _)|[(ee & l4 & _ & Hr3 & _)|(LL & l4 & _ & _ & Hb & Hr3 & ->)]];
      [discriminate..|].
    injection Hr3 as ->. exists LL, s, l4, l3.
    split; [reflexivity|]. split; [reflexivity|]. split; [exact Hpost|].
    right. split; [exact Hms|]. split; [exact Hb|].
    simpl. rewrite <- app_assoc. reflexivity.
Qed.

(** ** The loop *)

Lemma run_stmt_inr E s st u st' l :
  run_stmt E s st = (inr u, st', l) ->
  env_fault E (st_nstmt st) = None /\ exec_stmt s (st_db st) = inr (st_db st').
Proof.
  unfold run_stmt. destruct (env_fault E (st_nstmt st)); [intros H; inversion H|].
  destruct (exec_stmt s (st_db st)); intros H; inversion H; subst; auto.
Qed.

Definition step_attachment (E : Env) (m : Message) (h : string) (a : Attachment)
    : Attachment :=
  if refs E h m then mkAttachment (a_counter a + 1) (a_magic a + m_magic m) (env_now E)
  else a.

Lemma count_refs_nonneg E h ms : 0 <= count_refs E h ms.
Proof. induction ms as [|m ms IH]; simpl; [lia|]. destruct (refs E h m); lia. Qed.

Lemma attachment_after_cons E m ms h a :
  attachment_after E (m :: ms) h a = attachment_after E ms h (step_attachment E m h a).
Proof.
  unfold attachment_after, step_attachment. simpl.
  pose proof (count_refs_nonneg E h ms).
  destruct (refs E h m); simpl.
  - repeat case_bool_decide; try lia; f_equal; lia.
  - f_equal.
Qed.

Lemma copy_row_mimeTree E sess mb tg i u m :
  m_mimeTree (copy_row E sess mb tg i u m) = m_mimeTree m.
Proof. reflexivity. Qed.

Lemma attachments_update E m ids (A : gmap string Attachment) h :
  env_getAttachments E (m_mimeTree m) = ids ->
  map_imap (inc_attachment ids 1 (m_magic m) (env_now E)) A !! h =
  step_attachment E m h <$> A !! h.
Proof.
  intros Hids. rewrite map_lookup_imap. destruct (A !! h) as [a|]; simpl; [|reflexivity].
  unfold inc_attachment, step_attachment, refs. rewrite Hids.
  case_bool_decide; reflexivity.
Qed.

Lemma copy_rows_inr E sess mb tg ms : forall L st L' st' l,
  copy_rows E sess mb tg ms L st = (inr L', st', l) ->
  v_sourceUid L' = rev (map m_uid ms) ++ v_sourceUid L /\
  v_destinationUid L' = rev (zseq (v_uidNext L) (length ms)) ++ v_destinationUid L /\
  v_uidNext L' = v_uidNext L + Z.of_nat (length ms) /\
  v_sourceIds L' = v_sourceIds L ++ map m_id ms /\
  Mailboxes (st_db st') = Mailboxes (st_db st) /\
  (forall h, Attachments (st_db st') !! h =
             attachment_after E ms h <$> Attachments (st_db st) !! h).
Proof.
  induction ms as [|m ms IH]; intros L st L' st' l H; simpl in H.
  - inversion H; subst. simpl. repeat split; try lia; [by rewrite app_nil_r|].
    intros h. destruct (Attachments (st_db st') !! h) as [a|]; simpl; [|reflexivity].
    unfold attachment_after. simpl.
    rewrite !Z.add_0_r. destruct a; reflexivity.
  - binv H H1 H2; [discriminate|].
    apply newObjectId_inv in H1 as (Ha & Hdb1 & ->). injection Ha as ->.
    binv H2 H3 H4; [discriminate|].
    apply run_stmt_inr in H3 as [_ Hins]. simpl in Hins.
    destruct (existsb _ _); [discriminate|]. injection Hins as Hins.
    binv H4 H5 H6; [discriminate|].
    destruct (IH _ _ _ _ _ H6) as (Hs & Hd & Hu & Hi & Hmb & Hat). clear IH H6.
    simpl in Hs, Hd, Hu, Hi.
    assert (Hmid : Mailboxes (st_db s1) = Mailboxes (st_db st) /\
      forall h, Attachments (st_db s1) !! h =
                step_attachment E m h <$> Attachments (st_db st) !! h).
    { case_bool_decide.
      - apply run_stmt_inr in H5 as [_ Hup]. simpl in Hup. injection Hup as Hup.
        rewrite <- Hup, <- Hins. simpl. rewrite Hdb1. split; [reflexivity|].
        intros h. apply attachments_update. reflexivity.
      - inversion H5; subst. rewrite <- Hins. simpl. rewrite Hdb1. split; [reflexivity|].
        intros h. destruct (Attachments (st_db st) !! h) as [at0|]; simpl; [|reflexivity].
        unfold step_attachment, refs. rewrite bool_decide_false; [reflexivity|].
        destruct (env_getAttachments E (m_mimeTree m)) as [|x xs];
          [apply not_elem_of_nil | simpl in *; lia]. }
    destruct Hmid as [Hmb0 Hat0].
    repeat split.
    + rewrite Hs. simpl. rewrite <- app_assoc. reflexivity.
    + rewrite Hd. simpl. rewrite <- app_assoc. reflexivity.
    + rewrite Hu. cbn [length]. lia.
    + rewrite Hi, <- app_assoc. reflexivity.
    + rewrite Hmb, Hmb0. reflexivity.
    + intros h. rewrite Hat, Hat0.
      destruct (Attachments (st_db st) !! h) as [at0|]; simpl; [|reflexivity].
      rewrite attachment_after_cons. reflexivity.
Qed.

(** The statements the loop runs: inserts of rows rewritten for [tg], and
    attachment updates. *)
Definition loop_event (tg : Mailbox) (ev : Event) : Prop :=
  match ev with
  | EvStmt (SInsertMessage m) => m_exp m = retention_exp tg /\ m_mailbox m = mb_id tg
  | EvStmt (SUpdateAttachments _ _ _ _) => True
  | _ => False
  end.

Lemma copy_rows_shape E sess mb tg ms : forall L st r st' l,
  copy_rows E sess mb tg ms L st = (r, st', l) -> Forall (loop_event tg) l.
Proof.
  induction ms as [|m ms IH]; intros L st r st' l H; simpl in H.
  - inversion H; subst; constructor.
  - binv H H1 H2; apply newObjectId_inv in H1 as (? & _ & ->); [constructor|].
    simpl. binv H2 H3 H4; apply run_stmt_log in H3; subst;
      [repeat constructor; reflexivity|].
    constructor; [split; reflexivity|].
    binv H4 H5 H6; case_bool_decide.
    + apply run_stmt_log in H5; subst; repeat constructor.
    + inversion H5.
    + apply run_stmt_log in H5; subst. constructor; [exact I|]. eauto.
    + inversion H5; subst. simpl. eauto.
Qed.

Fixpoint uidNext_writes (l : list Event) : nat :=
  match l with
  | [] => O
  | ev :: l' => ((if is_uidNext_write ev then 1 else 0) + uidNext_writes l')%nat
  end.

Lemma uidNext_writes_app l1 l2 :
  uidNext_writes (l1 ++ l2) = (uidNext_writes l1 + uidNext_writes l2)%nat.
Proof. induction l1 as [|ev l1 IH]; simpl; [reflexivity|]. rewrite IH. lia. Qed.

Lemma uidNext_writes_loop tg l : Forall (loop_event tg) l -> uidNext_writes l = O.
Proof.
  induction 1 as [|ev l Hev _ IH]; simpl; [reflexivity|].
  destruct ev as [| | | | |[]| | | | | | |]; simpl in *; tauto.
Qed.

Lemma uidNext_writes_quiet l :
  Forall (fun ev => guarded_event ev = false) l -> uidNext_writes l = O.
Proof.
  induction 1 as [|ev l Hev _ IH]; simpl; [reflexivity|].
  destruct ev; simpl in *; congruence.
Qed.

Lemma copy_batch_inr E sess mb tg ms st L st' l :
  copy_batch E sess mb tg ms (initial_locals tg) st = (inr L, st', l) ->
  v_sourceUid L = rev (map m_uid ms) /\
  v_destinationUid L = rev (zseq (mb_uidNext tg) (length ms)) /\
  Mailboxes (st_db st') =
    map (set_uidNext (mb_id tg) (mb_uidNext tg + Z.of_nat (length ms)))
      (Mailboxes (st_db st)) /\
  (forall h, Attachments (st_db st') !! h =
             attachment_after E ms h <$> Attachments (st_db st) !! h) /\
  uidNext_writes l = 1%nat /\
  (forall m, In (EvStmt (SInsertMessage m)) l -> m_exp m = retention_exp tg).
Proof.
  unfold copy_batch. intros H.
  binv H H1 H2; [discriminate|].
  pose proof (copy_rows_shape _ _ _ _ _ _ _ _ _ _ H1) as Hshape.
  apply copy_rows_inr in H1 as (Hs & Hd & Hu & _ & Hmb & Hat).
  binv H2 H3 H4; [discriminate|].
  pose proof (run_stmt_log _ _ _ _ _ _ H3) as ->.
  apply run_stmt_inr in H3 as [_ Hc]. simpl in Hc. injection Hc as Hc.
  binv H4 H5 H6; [discriminate|].
  pose proof (run_stmt_log _ _ _ _ _ _ H5) as ->.
  apply run_stmt_inr in H5 as [_ Hw]. simpl in Hw. injection Hw as Hw.
  inversion H6; subst. simpl in Hs, Hd, Hu.
  rewrite app_nil_r in Hs, Hd. repeat split; auto.
  - rewrite <- Hw. simpl. rewrite <- Hc. simpl. rewrite Hmb, Hu. reflexivity.
  - intros h. rewrite <- Hw. simpl. rewrite <- Hc. simpl. apply Hat.
  - rewrite !uidNext_writes_app, (uidNext_writes_loop _ _ Hshape). reflexivity.
  - intros m Hin. apply in_app_or in Hin as [Hin|Hin].
    + rewrite List.Forall_forall in Hshape. apply (Hshape _ Hin).
    + simpl in Hin. destruct Hin as [Hin|[Hin|[]]]; discriminate.
Qed.

(** ** The ORDER BY uid *)

Definition uid_le (a b : Message) : Prop := m_uid a <= m_uid b.

Lemma insert_by_uid_perm m l : Permutation (insert_by_uid m l) (m :: l).
Proof.
  induction l as [|r l IH]; simpl; [reflexivity|].
  destruct (m_uid m <=? m_uid r); [reflexivity|].
  rewrite IH. apply perm_swap.
Qed.

Lemma sort_by_uid_perm l : Permutation (sort_by_uid l) l.
Proof.
  induction l as [|m l IH]; simpl; [reflexivity|].
  rewrite insert_by_uid_perm, IH. reflexivity.
Qed.

Lemma insert_by_uid_sorted m l : Sorted uid_le l -> Sorted uid_le (insert_by_uid m l).
Proof.
  induction 1 as [|r l Hs IH Hhd]; simpl; [repeat constructor|].
  destruct (m_uid m <=? m_uid r) eqn:Hle.
  - apply Z.leb_le in Hle. constructor; [constructor; auto | constructor; exact Hle].
  - apply Z.leb_gt in Hle. constructor; [exact IH|].
    destruct l as [|r' l]; simpl.
    + constructor. unfold uid_le. lia.
    + inversion Hhd; subst. destruct (m_uid m <=? m_uid r'); constructor;
        unfold uid_le in *; lia.
Qed.

Lemma sort_by_uid_sorted l : Sorted uid_le (sort_by_uid l).
Proof.
  induction l as [|m l IH]; simpl; [constructor|]. apply insert_by_uid_sorted, IH.
Qed.

Lemma select_sorted db c : StronglySorted uid_le (select_messages db c).
Proof.
  apply Sorted_StronglySorted; [unfold Relations_1.Transitive, uid_le; intros; lia|].
  apply sort_by_uid_sorted.
Qed.

(** ** List facts *)

Lemma StronglySorted_snoc {A} (R : A -> A -> Prop) l a :
  StronglySorted R l -> Forall (fun x => R x a) l -> StronglySorted R (l ++ [a]).
Proof.
  induction 1 as [|x l Hs IH Hx]; intros Ha; simpl.
  - repeat constructor.
  - inversion Ha; subst. constructor; [auto|]. apply Forall_app; auto.
Qed.

Lemma StronglySorted_rev {A} (R : A -> A -> Prop) l :
  StronglySorted R l -> StronglySorted (fun x y => R y x) (rev l).
Proof.
  induction 1 as [|x l Hs IH Hx]; simpl; [constructor|].
  apply StronglySorted_snoc; [exact IH|]. apply Forall_rev. exact Hx.
Qed.

Lemma StronglySorted_map_uid ms :
  StronglySorted uid_le ms -> StronglySorted Z.le (map m_uid ms).
Proof.
  induction 1 as [|m ms Hs IH Hm]; simpl; constructor; [exact IH|].
  apply Forall_map. exact Hm.
Qed.

Lemma zseq_ge u n x : In x (zseq u n) -> u <= x.
Proof.
  revert u. induction n as [|n IH]; simpl; intros u H; [contradiction|].
  destruct H as [<-|H]; [lia|]. apply IH in H. lia.
Qed.

Lemma zseq_sorted u n : StronglySorted Z.lt (zseq u n).
Proof.
  revert u. induction n as [|n IH]; simpl; intros u; constructor; [apply IH|].
  apply List.Forall_forall. intros x Hx. apply zseq_ge in Hx. lia.
Qed.

Lemma length_zseq u n : length (zseq u n) = n.
Proof. revert u. induction n; simpl; auto. Qed.

Lemma combine_snoc {A B} (l1 : list A) (l2 : list B) a b :
  length l1 = length l2 -> combine (l1 ++ [a]) (l2 ++ [b]) = combine l1 l2 ++ [(a, b)].
Proof.
  revert l2. induction l1 as [|x l1 IH]; intros [|y l2] Hl; simpl in *;
    try discriminate; [reflexivity|]. rewrite IH by lia. reflexivity.
Qed.

Lemma combine_rev {A B} (l1 : list A) (l2 : list B) :
  length l1 = length l2 -> combine (rev l1) (rev l2) = rev (combine l1 l2).
Proof.
  revert l2. induction l1 as [|x l1 IH]; intros [|y l2] Hl; simpl in *;
    try discriminate; [reflexivity|].
  rewrite combine_snoc by (rewrite !length_rev; lia). rewrite IH by lia. reflexivity.
Qed.

(** Pairing ascending source UIDs with consecutive destination UIDs
    preserves their order. *)
Lemma combine_order ms : StronglySorted uid_le ms -> forall u a da b db,
  In (a, da) (combine (map m_uid ms) (zseq u (length ms))) ->
  In (b, db) (combine (map m_uid ms) (zseq u (length ms))) ->
  a < b -> da < db.
Proof.
  induction 1 as [|m ms Hs IH Hm]; intros u a da b db Ha Hb Hab; simpl in *;
    [contradiction|].
  destruct Ha as [Ha|Ha]; destruct Hb as [Hb|Hb].
  - injection Ha as <- <-. injection Hb as <- <-. lia.
  - injection Ha as <- <-. apply in_combine_r, zseq_ge in Hb. lia.
  - injection Hb as <- <-. apply in_combine_l, in_map_iff in Ha as (m' & <- & Hm').
    rewrite List.Forall_forall in Hm. apply Hm in Hm'. unfold uid_le in Hm'. lia.
  - eapply IH; eauto.
Qed.

(** ** Consequences of a successful COPY *)

Lemma onCopy_arrays E sess mid upd st resp st' l :
  onCopy E sess mid upd st = (inr resp, st', l) ->
  exists mb tg,
    find_mailbox_by_id (st_db st) mid = Some mb /\
    find_mailbox_by_path (st_db st) (destination upd) = Some tg /\
    let ms := select_messages (st_db st) (build_condition mb upd) in
    sourceUid resp = rev (map m_uid ms) /\
    destinationUid resp = rev (zseq (mb_uidNext tg) (length ms)) /\
    uidValidity resp = mb_uidValidity tg.
Proof.
  intros H. apply onCopy_success in H as (mb & tg & lock & Hmb & Htg & _ & H).
  exists mb, tg. split; [exact Hmb|]. split; [exact Htg|].
  destruct H as (L & st1 & l1 & post & -> & _ & _ &
                 [(Hms & -> & _ & _)|(Hms & Hb & _)]); simpl.
  - rewrite Hms. auto.
  - apply copy_batch_inr in Hb as (Hs & Hd & _). auto.
Qed.

Lemma find_mailbox_by_id_unique (l : list Mailbox) x id :
  NoDup (map mb_id l) -> In x l -> mb_id x = id ->
  find (fun mb => mb_id mb =? id) l = Some x.
Proof.
  intros Hnd Hin <-. revert Hnd Hin.
  induction l as [|y l IH]; simpl; [contradiction|].
  intros Hnd Hin. inversion Hnd as [|? ? Hy Hnd']; subst.
  destruct Hin as [<-|Hin]; [rewrite Z.eqb_refl; reflexivity|].
  destruct (mb_id y =? mb_id x) eqn:E; [|auto].
  apply Z.eqb_eq in E. exfalso. apply Hy. rewrite E. apply list_elem_of_In, in_map. exact Hin.
Qed.

Lemma map_mb_id_set_uidNext id v l :
  map mb_id (map (set_uidNext id v) l) = map mb_id l.
Proof.
  rewrite map_map. apply map_ext. intros mb. unfold set_uidNext.
  case_bool_decide; reflexivity.
Qed.

Lemma release_log_uidNext_writes E lockv : uidNext_writes (release_log E lockv) = O.
Proof.
  unfold release_log. destruct lockv as [lock|]; [|reflexivity].
  destruct (lock_success lock); [|reflexivity].
  destruct (env_releaseLock E); reflexivity.
Qed.

Lemma stmt_not_quiet s l :
  Forall (fun ev => guarded_event ev = false) l -> ~ In (EvStmt s) l.
Proof. intros Hq Hin. rewrite List.Forall_forall in Hq. apply Hq in Hin. discriminate. Qed.

Lemma stmt_not_release E lockv s : ~ In (EvStmt s) (release_log E lockv).
Proof.
  unfold release_log. destruct lockv as [lock|]; [|simpl; tauto].
  destruct (lock_success lock); [|simpl; tauto].
  destruct (env_releaseLock E); simpl; intuition discriminate.
Qed.

(** Every statement a successful COPY runs is one of its batch. *)
Lemma onCopy_stmts E sess mid upd st resp st' l s :
  onCopy E sess mid upd st = (inr resp, st', l) -> In (EvStmt s) l ->
  exists mb tg L st1 l1,
    find_mailbox_by_id (st_db st) mid = Some mb /\
    find_mailbox_by_path (st_db st) (destination upd) = Some tg /\
    copy_batch E sess mb tg (select_messages (st_db st) (build_condition mb upd))
      (initial_locals tg) st = (inr L, st1, l1) /\
    In (EvStmt s) l1.
Proof.
  intros H Hin. apply onCopy_success in H as (mb & tg & lock & Hmb & Htg & _ & H).
  destruct H as (L & st1 & l1 & post & _ & _ & Hpost &
                 [(Hms & -> & _ & ->)|(Hms & Hb & ->)]).
  - exfalso. cbn [app In] in Hin.
    destruct Hin as [Hin|[Hin|[Hin|[Hin|Hin]]]]; try discriminate.
    apply in_app_or in Hin as [Hin|Hin];
      [eapply stmt_not_release | eapply stmt_not_quiet]; eauto.
  - exists mb, tg, L, st1, l1. repeat split; auto.
    cbn [app In] in Hin.
    destruct Hin as [Hin|[Hin|[Hin|[Hin|[Hin|Hin]]]]]; try discriminate.
    apply in_app_or in Hin as [Hin|Hin]; [exact Hin|].
    destruct Hin as [Hin|Hin]; [discriminate|].
    apply in_app_or in Hin as [Hin|Hin];
      [eapply stmt_not_release in Hin | eapply stmt_not_quiet in Hin]; eauto; contradiction.
Qed.

(** ** Claims about a successful COPY *)

(** C1 (amended).  A successful COPY returns [sourceUid] as the source UIDs
    in descending order (the rows are read in ascending UID order and each
    UID is prepended) and [destinationUid] as the parallel, strictly
    decreasing run of assigned UIDs [uidNext + n - 1, ..., uidNext]. *)
Theorem onCopy_uid_arrays_descending E sess mid upd st resp st' l :
  onCopy E sess mid upd st = (inr resp, st', l) ->
  exists mb tg,
    find_mailbox_by_id (st_db st) mid = Some mb /\
    find_mailbox_by_path (st_db st) (destination upd) = Some tg /\
    let ms := select_messages (st_db st) (build_condition mb upd) in
    StronglySorted uid_le ms /\
    sourceUid resp = rev (map m_uid ms) /\
    destinationUid resp = rev (zseq (mb_uidNext tg) (length ms)) /\
    StronglySorted (fun x y => y <= x) (sourceUid resp) /\
    StronglySorted (fun x y => y < x) (destinationUid resp).
Proof.
  intros H. apply onCopy_arrays in H as (mb & tg & Hmb & Htg & Hs & Hd & _).
  exists mb, tg. split; [exact Hmb|]. split; [exact Htg|].
  pose proof (select_sorted (st_db st) (build_condition mb upd)) as Hsort.
  split; [exact Hsort|]. split; [exact Hs|]. split; [exact Hd|].
  rewrite Hs, Hd. split.
  - apply StronglySorted_rev, StronglySorted_map_uid, Hsort.
  - apply StronglySorted_rev, zseq_sorted.
Qed.

(** C4.  Over the pairs (source UID, destination UID) a successful COPY
    reports, a smaller source UID always gets a smaller destination UID. *)
Theorem onCopy_uid_mapping_order_preserving E sess mid upd st resp st' l :
  onCopy E sess mid upd st = (inr resp, st', l) ->
  forall a da b db,
    In (a, da) (combine (sourceUid resp) (destinationUid resp)) ->
    In (b, db) (combine (sourceUid resp) (destinationUid resp)) ->
    a < b -> da < db.
Proof.
  intros H. apply onCopy_arrays in H as (mb & tg & _ & _ & Hs & Hd & _).
  rewrite Hs, Hd.
  rewrite combine_rev by (rewrite length_map, length_zseq; reflexivity).
  intros a da b db Ha Hb. rewrite <- in_rev in Ha, Hb.
  eapply combine_order; eauto. apply select_sorted.
Qed.

(** C10.  With an empty UID list the SELECT has no UID condition, and a
    successful COPY reports every message of the source mailbox. *)
Theorem onCopy_empty_filter_copies_all E sess mid upd st resp st' l mb :
  messages upd = [] ->
  find_mailbox_by_id (st_db st) mid = Some mb ->
  onCopy E sess mid upd st = (inr resp, st', l) ->
  build_condition mb upd = mkCondition (mb_id mb) None /\
  Permutation (sourceUid resp)
    (map m_uid (filter (fun m => m_mailbox m = mb_id mb) (Messages (st_db st)))).
Proof.
  intros Hupd Hmb H.
  assert (Hc : build_condition mb upd = mkCondition (mb_id mb) None)
    by (unfold build_condition; rewrite Hupd; reflexivity).
  split; [exact Hc|].
  apply onCopy_arrays in H as (mb' & tg & Hmb' & _ & Hs & _).
  rewrite Hmb in Hmb'. injection Hmb' as <-.
  rewrite Hs, Hc. rewrite <- Permutation_rev. apply Permutation_map.
  unfold select_messages. rewrite sort_by_uid_perm.
  erewrite list_filter_iff; [reflexivity|].
  intros m. unfold matches. simpl. rewrite andb_true_r. apply Z.eqb_eq.
Qed.

(** C3.  After a successful COPY the destination mailbox row carries
    [uidNext] advanced by the number of copied messages, and the log holds
    one write of [uidNext] for the batch (none when nothing was copied). *)
Theorem onCopy_uidNext_persisted_once E sess mid upd st resp st' l :
  onCopy E sess mid upd st = (inr resp, st', l) ->
  NoDup (map mb_id (Mailboxes (st_db st))) ->
  exists tg r,
    find_mailbox_by_path (st_db st) (destination upd) = Some tg /\
    find_mailbox_by_id (st_db st') (mb_id tg) = Some r /\
    mb_uidNext r = mb_uidNext tg + Z.of_nat (length (sourceUid resp)) /\
    uidNext_writes l = (if bool_decide (sourceUid resp = []) then 0 else 1)%nat.
Proof.
  intros H Hnd. apply onCopy_success in H as (mb & tg & lock & _ & Htg & _ & H).
  pose proof (find_some _ _ Htg) as [Hin _].
  destruct H as (L & st1 & l1 & post & -> & Hdb & Hpost &
                 [(Hms & -> & -> & ->)|(Hms & Hb & ->)]); cbn [sourceUid].
  - exists tg, tg. split; [exact Htg|].
    unfold find_mailbox_by_id. rewrite Hdb. split; [apply find_mailbox_by_id_unique; auto|].
    cbn [v_sourceUid initial_locals length]. split; [lia|].
    rewrite !uidNext_writes_app, release_log_uidNext_writes, (uidNext_writes_quiet _ Hpost).
    reflexivity.
  - apply copy_batch_inr in Hb as (Hs & Hd & Hmbx & _ & Hw & _).
    set (v := mb_uidNext tg + Z.of_nat (length
                (select_messages (st_db st) (build_condition mb upd)))) in *.
    exists tg, (set_uidNext (mb_id tg) v tg). split; [exact Htg|].
    unfold find_mailbox_by_id. rewrite Hdb, Hmbx. split.
    + assert (Hid : mb_id (set_uidNext (mb_id tg) v tg) = mb_id tg)
        by (unfold set_uidNext; case_bool_decide; reflexivity).
      apply find_mailbox_by_id_unique; [| |exact Hid].
      * rewrite map_mb_id_set_uidNext. exact Hnd.
      * apply in_map, Hin.
    + rewrite Hs, length_rev, length_map. split.
      * unfold set_uidNext. rewrite bool_decide_true by reflexivity. reflexivity.
      * rewrite bool_decide_false.
        -- rewrite !uidNext_writes_app. cbn [uidNext_writes is_uidNext_write].
           rewrite !uidNext_writes_app, Hw. cbn [uidNext_writes is_uidNext_write].
           rewrite release_log_uidNext_writes, (uidNext_writes_quiet _ Hpost). reflexivity.
        -- intros Hnil. apply Hms. destruct (select_messages _ _); [reflexivity|].
           simpl in Hnil. apply app_eq_nil in Hnil as [_ Hx]. discriminate.
Qed.

Lemma retention_exp_spec tg :
  (retention_exp tg = 1 <-> exists r, mb_retention tg = Some r /\ r <> 0) /\
  (retention_exp tg = 0 <-> mb_retention tg = Some 0 \/ mb_retention tg = None).
Proof.
  unfold retention_exp. destruct (mb_retention tg) as [r|].
  - destruct (r =? 0) eqn:Hr; simpl.
    + apply Z.eqb_eq in Hr. subst. split; split; intros H; try discriminate; auto.
      * destruct H as (r & Hr & Hne). injection Hr as <-. lia.
    + apply Z.eqb_neq in Hr. split; split; intros H; try discriminate; eauto.
      * destruct H as [H|H]; [injection H as ->; lia | discriminate].
  - split; split; intros H; try discriminate; auto.
    + destruct H as (r & Hr & _). discriminate.
Qed.

(** C8 (amended).  Every row a successful COPY inserts has its expiry flag
    set exactly when the destination's retention is a number other than
    zero; a zero and a non-numeric retention both leave it unset. *)
Theorem onCopy_exp_flag E sess mid upd st resp st' l tg :
  onCopy E sess mid upd st = (inr resp, st', l) ->
  find_mailbox_by_path (st_db st) (destination upd) = Some tg ->
  forall m, In (EvStmt (SInsertMessage m)) l ->
    (m_exp m = 1 <-> exists r, mb_retention tg = Some r /\ r <> 0) /\
    (m_exp m = 0 <-> mb_retention tg = Some 0 \/ mb_retention tg = None).
Proof.
  intros H Htg m Hin.
  apply (onCopy_stmts _ _ _ _ _ _ _ _ _ H) in Hin
    as (mb & tg' & L & st1 & l1 & _ & Htg' & Hb & Hin).
  rewrite Htg in Htg'. injection Htg' as <-.
  apply copy_batch_inr in Hb as (_ & _ & _ & _ & _ & Hexp).
  rewrite (Hexp _ Hin). apply retention_exp_spec.
Qed.

(** ** Any run of COPY *)

Lemma onCopy_cases E sess mid upd st r st' l :
  onCopy E sess mid upd st = (r, st', l) ->
  (st' = st /\ Forall (fun ev => guarded_event ev = false) l /\ exists e, r = inl e) \/
  exists mb tg lockv r2 s1 l2 l3,
    validate E sess mid upd st = (inr (mb, tg), st, [EvRefreshSession; EvQuotaCheck 0]) /\
    guarded E sess mb tg upd st = (inr (lockv, r2), s1, l2) /\
    st_db st' = st_db s1 /\
    Forall (fun ev => guarded_event ev = false) l3 /\
    l = [EvRefreshSession; EvQuotaCheck 0] ++ l2 ++ release_log E lockv ++ l3 /\
    (forall e, r2 = inl e -> r = inl e /\ l3 = []).
Proof.
  unfold onCopy. intros H.
  binv H H1 H2.
  { left. destruct (quiet_validate _ _ _ _ _ _ _ _ H1) as [-> Hq]. eauto. }
  destruct a as [mb tg]. pose proof H1 as Hv.
  apply validate_inr in H1 as (-> & _ & _ & _ & _ & ->).
  right. exists mb, tg.
  binv H2 H3 H4; [apply guarded_cases in H3 as [(? & _ & ? & _)|(? & ? & ? & _ & ? & _)];
                  discriminate|].
  destruct a as [lockv r2].
  binv H4 H5 H6.
  - apply finish_locked_inv in H5 as (-> & Hr & ->).
    exists lockv, r2, s, l1, []. repeat split; auto;
      try (rewrite app_nil_r; reflexivity); try congruence.
  - apply finish_locked_inv in H5 as (-> & Hr & ->).
    destruct (quiet_post_commit _ _ _ _ _ _ _ _ H6) as [-> Hq].
    exists lockv, r2, s, l1, l3. repeat split; auto; try congruence.
Qed.

Lemma not_in_quiet ev l :
  guarded_event ev = true -> Forall (fun ev => guarded_event ev = false) l -> ~ In ev l.
Proof. intros Hg Hq Hin. rewrite List.Forall_forall in Hq. apply Hq in Hin. congruence. Qed.

Lemma not_in_release E lockv ev :
  ev <> EvReleaseLock -> (forall e, ev <> EvFatal e) -> ~ In ev (release_log E lockv).
Proof.
  intros H1 H2. unfold release_log. destruct lockv as [lock|]; [|simpl; tauto].
  destruct (lock_success lock); [|simpl; tauto].
  destruct (env_releaseLock E) as [e|]; simpl.
  - intros [Hx|[Hx|[]]]; [apply H1 | apply (H2 e)]; auto.
  - intros [Hx|[]]. apply H1; auto.
Qed.

Lemma not_in_stmts ev l :
  is_stmt ev = false -> Forall (fun ev => is_stmt ev = true) l -> ~ In ev l.
Proof. intros Hs Hq Hin. rewrite List.Forall_forall in Hq. apply Hq in Hin. congruence. Qed.

(** The guarded section either commits or leaves the storage as it was; a
    rollback always comes with a caught error. *)
Lemma guarded_atomic E sess mb tg upd st lockv r2 s1 l2 :
  guarded E sess mb tg upd st = (inr (lockv, r2), s1, l2) ->
  (In EvCommit l2 \/ st_db s1 = st_db st) /\
  (In EvRollback l2 -> ~ In EvCommit l2 /\ st_db s1 = st_db st /\ exists e, r2 = inl e).
Proof.
  intros H. apply guarded_cases in H as
    [(e & _ & Hr & -> & ->)|(lock & rr & lb & _ & Hr & Hlb & ->)];
    injection Hr as -> ->.
  - split; [right; reflexivity|]. simpl. intuition discriminate.
  - apply locked_body_cases in Hlb as
      [(e & _ & -> & -> & ->)|[(_ & _ & -> & -> & ->)|(_ & _ & lt & Ht & ->)]].
    + split; [right; reflexivity|]. simpl. intuition discriminate.
    + split; [right; reflexivity|]. simpl. intuition discriminate.
    + apply transaction_cases in Ht as
        [(e & _ & -> & -> & ->)|[(e & l1 & _ & -> & Hdb & (r1 & s2 & Hb) & ->)|
                                  (a & l1 & _ & _ & Hb & -> & ->)]];
        apply copy_batch_log in Hb || idtac.
      * split; [right; reflexivity|]. simpl. intuition discriminate.
      * assert (Hc : ~ In EvCommit (EvAcquireLock :: EvSelect :: EvBegin :: l1 ++ [EvRollback])).
        { cbn [In]. intros [Hx|[Hx|[Hx|Hx]]]; try discriminate.
          apply in_app_or in Hx as [Hx|[Hx|[]]]; [|discriminate].
          exact (not_in_stmts _ _ (eq_refl : is_stmt EvCommit = false) Hb Hx). }
        split; [right; exact Hdb|]. intros _. eauto.
      * split; [left; simpl; right; right; right; apply in_or_app; right; left; reflexivity|].
        intros Hin. exfalso. cbn [In] in Hin.
        destruct Hin as [Hx|[Hx|[Hx|Hx]]]; try discriminate.
        apply in_app_or in Hx as [Hx|[Hx|[]]]; [|discriminate].
        exact (not_in_stmts _ _ (eq_refl : is_stmt EvRollback = false) Hb Hx).
Qed.

Lemma locked_body_no_release E sess mb tg upd st r st' l :
  locked_body E sess mb tg upd st = (r, st', l) -> release_count l = O.
Proof.
  intros H. apply locked_body_cases in H as
    [(e & _ & _ & _ & ->)|[(_ & _ & _ & _ & ->)|(_ & _ & lt & Ht & ->)]];
    [reflexivity..|].
  assert (Hs : forall l1, Forall (fun ev => is_stmt ev = true) l1 ->
                 release_count l1 = O).
  { induction 1 as [|ev l1 Hev _ IH]; [reflexivity|].
    unfold release_count in *. simpl. destruct ev; try discriminate. exact IH. }
  apply transaction_cases in Ht as
    [(e & _ & _ & _ & ->)|[(e & l1 & _ & _ & _ & (r1 & s2 & Hb) & ->)|
                           (a & l1 & _ & _ & Hb & _ & ->)]];
    [reflexivity| |]; apply copy_batch_log, Hs in Hb;
    unfold release_count in *; simpl; rewrite List.filter_app, length_app, Hb; reflexivity.
Qed.

Lemma release_count_app l1 l2 :
  release_count (l1 ++ l2) = (release_count l1 + release_count l2)%nat.
Proof. unfold release_count. rewrite List.filter_app, length_app. reflexivity. Qed.

Lemma release_count_quiet l :
  Forall (fun ev => guarded_event ev = false) l -> release_count l = O.
Proof.
  induction 1 as [|ev l Hev _ IH]; [reflexivity|].
  unfold release_count in *. simpl. destruct ev; try discriminate; exact IH.
Qed.

Lemma attachment_after_nil E h a : attachment_after E [] h a = a.
Proof. unfold attachment_after. simpl. rewrite !Z.add_0_r. destruct a; reflexivity. Qed.

Lemma count_refs_filter E h ms :
  count_refs E h ms = Z.of_nat (length (List.filter (refs E h) ms)).
Proof.
  induction ms as [|m ms IH]; [reflexivity|]. simpl.
  destruct (refs E h m); cbn [length]; lia.
Qed.

Lemma validate_with_release E x sess mid upd :
  validate (with_release E x) sess mid upd = validate E sess mid upd.
Proof. reflexivity. Qed.

Lemma guarded_with_release E x sess mb tg upd :
  guarded (with_release E x) sess mb tg upd = guarded E sess mb tg upd.
Proof. reflexivity. Qed.

Lemma post_commit_with_release E x upd tg L :
  post_commit (with_release E x) upd tg L = post_commit E upd tg L.
Proof. reflexivity. Qed.

(** ** Claims about any run of COPY *)

(** C2.  A COPY that never commits its transaction leaves the storage
    exactly as it found it (no inserted row, no attachment update, no
    [copied] marker, no [uidNext] write), and a COPY whose transaction was
    rolled back has committed nothing and fails. *)
Theorem onCopy_batch_atomic E sess mid upd st r st' l :
  onCopy E sess mid upd st = (r, st', l) ->
  (~ In EvCommit l -> st_db st' = st_db st) /\
  (In EvRollback l -> ~ In EvCommit l /\ st_db st' = st_db st /\ exists e, r = inl e).
Proof.
  intros H. apply onCopy_cases in H as
    [(-> & Hq & Hr)|(mb & tg & lockv & r2 & s1 & l2 & l3 & _ & Hg & Hdb & Hq & -> & Hr)].
  - split; [reflexivity|]. intros Hin. exfalso. exact (not_in_quiet EvRollback l eq_refl Hq Hin).
  - apply guarded_atomic in Hg as [Hc Hrb].
    assert (Hout : forall ev, guarded_event ev = true -> ev <> EvReleaseLock ->
              (forall e, ev <> EvFatal e) ->
              In ev ([EvRefreshSession; EvQuotaCheck 0] ++ l2 ++ release_log E lockv ++ l3) ->
              In ev l2).
    { intros ev Hg Hrel Hfat Hin. cbn [app In] in Hin.
      destruct Hin as [<-|[<-|Hin]]; try discriminate.
      apply in_app_or in Hin as [Hin|Hin]; [exact Hin|].
      apply in_app_or in Hin as [Hin|Hin].
      - exfalso. exact (not_in_release E lockv ev Hrel Hfat Hin).
      - exfalso. exact (not_in_quiet _ _ Hg Hq Hin). }
    split.
    + intros Hnc. rewrite Hdb. destruct Hc as [Hc|Hc]; [|exact Hc].
      exfalso. apply Hnc. apply in_or_app. right. apply in_or_app. left. exact Hc.
    + intros Hin. apply Hout in Hin; try (intros; discriminate); [|reflexivity].
      destruct (Hrb Hin) as (Hnc & Hdb1 & e & He).
      split; [|split; [rewrite Hdb; exact Hdb1|]].
      * intros Hc'. apply Hout in Hc'; try (intros; discriminate); [|reflexivity].
        exact (Hnc Hc').
      * exists e. apply (Hr e He).
Qed.

(** C5.  After a successful COPY each attachment row [h] has its counter
    raised by the number of copied rows whose body references [h] (once per
    row, however often [h] occurs in it), its magic raised by their magic
    and its timestamp stamped; no row appears; and every statement of the
    COPY, attachment updates included, runs between BEGIN and COMMIT of one
    transaction. *)
Theorem onCopy_attachment_refcount E sess mid upd st resp st' l :
  onCopy E sess mid upd st = (inr resp, st', l) ->
  exists mb,
    find_mailbox_by_id (st_db st) mid = Some mb /\
    let ms := select_messages (st_db st) (build_condition mb upd) in
    (forall h a, Attachments (st_db st) !! h = Some a ->
       Attachments (st_db st') !! h = Some (attachment_after E ms h a) /\
       a_counter (attachment_after E ms h a) =
         a_counter a + Z.of_nat (length (List.filter (refs E h) ms))) /\
    (forall h, Attachments (st_db st) !! h = None -> Attachments (st_db st') !! h = None) /\
    (forall s, In (EvStmt s) l ->
       exists pre body post, l = pre ++ EvBegin :: body ++ EvCommit :: post /\
         In (EvStmt s) body /\ ~ In EvCommit body).
Proof.
  intros H. pose proof H as H0.
  apply onCopy_success in H as (mb & tg & lock & Hmb & _ & _ & H).
  exists mb. split; [exact Hmb|]. cbv zeta.
  destruct H as (L & st1 & l1 & post & _ & Hdb & Hpost &
                 [(Hms & -> & -> & ->)|(Hms & Hb & ->)]).
  - rewrite Hdb, Hms. split; [|split].
    + intros h a Ha. rewrite attachment_after_nil. split; [exact Ha|]. simpl. lia.
    + auto.
    + intros s Hin. exfalso. cbn [app In] in Hin.
      destruct Hin as [Hin|[Hin|[Hin|[Hin|Hin]]]]; try discriminate.
      apply in_app_or in Hin as [Hin|Hin].
      * exact (stmt_not_release _ _ _ Hin).
      * exact (stmt_not_quiet _ _ Hpost Hin).
  - pose proof (copy_batch_log _ _ _ _ _ _ _ _ _ _ Hb) as Hlog.
    apply copy_batch_inr in Hb as (_ & _ & _ & Hat & _).
    rewrite Hdb. split; [|split].
    + intros h a Ha. rewrite Hat, Ha. split; [reflexivity|].
      unfold attachment_after. simpl. rewrite count_refs_filter. reflexivity.
    + intros h Ha. rewrite Hat, Ha. reflexivity.
    + intros s Hin.
      exists [EvRefreshSession; EvQuotaCheck 0; EvAcquireLock; EvSelect], l1,
        (release_log E (Some lock) ++ post).
      split; [reflexivity|]. split.
      * cbn [app In] in Hin.
        destruct Hin as [Hin|[Hin|[Hin|[Hin|[Hin|Hin]]]]]; try discriminate.
        apply in_app_or in Hin as [Hin|Hin]; [exact Hin|].
        destruct Hin as [Hin|Hin]; [discriminate|].
        apply in_app_or in Hin as [Hin|Hin].
        -- exfalso. exact (stmt_not_release _ _ _ Hin).
        -- exfalso. exact (stmt_not_quiet _ _ Hpost Hin).
      * exact (not_in_stmts _ _ (eq_refl : is_stmt EvCommit = false) Hlog).
Qed.

(** C6.  Once the lock is taken (and reports success), the run calls
    [releaseLock] exactly once, after every storage and lock event of the
    guarded section; a failed release is logged as fatal; the result of the
    run does not depend on the outcome of the release; and an error caught
    in the guarded section is the result of the run. *)
Theorem onCopy_lock_released_once E sess mid upd st r st' l lock :
  env_acquireLock E = inr lock -> lock_success lock = true ->
  onCopy E sess mid upd st = (r, st', l) ->
  In EvAcquireLock l ->
  release_count l = 1%nat /\
  (exists l1 l2, l = l1 ++ EvReleaseLock :: l2 /\
     Forall (fun ev => guarded_event ev = false) l2) /\
  (forall e, env_releaseLock E = Some e -> In (EvFatal e) l) /\
  (forall x y, fst (fst (onCopy (with_release E x) sess mid upd st)) =
               fst (fst (onCopy (with_release E y) sess mid upd st))) /\
  (forall mb tg s1 l2 e,
     validate E sess mid upd st = (inr (mb, tg), st, [EvRefreshSession; EvQuotaCheck 0]) ->
     guarded E sess mb tg upd st = (inr (Some lock, inl e), s1, l2) ->
     r = inl e).
Proof.
  intros Hacq Hsucc H Hin. pose proof H as H0.
  apply onCopy_cases in H as
    [(_ & Hq & _)|(mb & tg & lockv & r2 & s1 & l2 & l3 & Hv & Hg & _ & Hq & -> & Hr)].
  { exfalso. exact (not_in_quiet EvAcquireLock l eq_refl Hq Hin). }
  pose proof Hg as Hg0.
  apply guarded_cases in Hg as
    [(e & He & _)|(lk & rr & lb & Hlk & Hrr & Hlb & ->)]; [congruence|].
  rewrite Hacq in Hlk. injection Hlk as <-. injection Hrr as -> ->.
  assert (Hrl : release_log E (Some lock) =
                EvReleaseLock ::
                  match env_releaseLock E with Some e => [EvFatal e] | None => [] end)
    by (unfold release_log; rewrite Hsucc; reflexivity).
  split; [|split; [|split; [|split]]].
  - pose proof (locked_body_no_release _ _ _ _ _ _ _ _ _ Hlb) as Hlb0.
    rewrite !release_count_app, Hrl, (release_count_quiet _ Hq).
    unfold release_count in *. cbn [List.filter is_release length app].
    rewrite Hlb0. destruct (env_releaseLock E); reflexivity.
  - exists ([EvRefreshSession; EvQuotaCheck 0] ++ EvAcquireLock :: lb),
      (match env_releaseLock E with Some e => [EvFatal e] | None => [] end ++ l3).
    split.
    + rewrite Hrl, <- !app_assoc. reflexivity.
    + apply Forall_app. split; [|exact Hq].
      destruct (env_releaseLock E); repeat constructor.
  - intros e He. rewrite Hrl, He. apply in_or_app. right. apply in_or_app. right.
    right. left. reflexivity.
  - intros x y. unfold onCopy, bind.
    rewrite !validate_with_release.
    destruct (validate E sess mid upd st) as [[[e|[mb' tg']] sv] lv]; [reflexivity|].
    cbv beta iota. rewrite !guarded_with_release.
    destruct (guarded E sess mb' tg' upd sv) as [[[e|[lockv' r']] sg] lg]; [reflexivity|].
    destruct (finish_locked (with_release E x) lockv' r' sg) as [[rx sx] lx] eqn:Hx.
    destruct (finish_locked (with_release E y) lockv' r' sg) as [[ry sy] ly] eqn:Hy.
    apply finish_locked_inv in Hx as (-> & -> & _).
    apply finish_locked_inv in Hy as (-> & -> & _).
    destruct r' as [e|L]; [reflexivity|].
    cbv beta iota. rewrite !post_commit_with_release.
    destruct (post_commit E upd tg' L sg) as [[rp sp] lp]. reflexivity.
  - intros mb' tg' s1' l2' e Hv' Hg'.
    rewrite Hv in Hv'. injection Hv' as <- <-.
    rewrite Hg0 in Hg'. injection Hg' as Hre _ _.
    apply (Hr e Hre).
Qed.

(** C7.  A source mailbox id that resolves to no mailbox fails COPY with
    [NONEXISTENT]; a resolved source with a destination path that resolves
    to no mailbox fails it with [TRYCREATE]; in both cases nothing is
    locked or written. *)
Theorem onCopy_missing_mailbox_kinds E sess mid upd st :
  env_refreshSession E = None -> env_isOverQuota E 0 = inr false ->
  (find_mailbox_by_id (st_db st) mid = None ->
     onCopy E sess mid upd st =
       (inl (IMAPError "IMAP_MAILBOX_DOES_NOT_EXIST" "NONEXISTENT"), st,
        [EvRefreshSession; EvQuotaCheck 0])) /\
  (forall mb, find_mailbox_by_id (st_db st) mid = Some mb ->
     find_mailbox_by_path (st_db st) (destination upd) = None ->
     onCopy E sess mid upd st =
       (inl (IMAPError "IMAP_MAILBOX_DOES_NOT_EXIST" "TRYCREATE"), st,
        [EvRefreshSession; EvQuotaCheck 0])).
Proof.
  intros Hrs Hq.
  unfold onCopy, validate, refreshSession, isOverQuota, bind, log, raise_opt,
    raise_sum, get_db, ret, throw.
  rewrite Hrs, Hq. simpl. split.
  - intros Hmb. rewrite Hmb. reflexivity.
  - intros mb Hmb Htg. rewrite Hmb, Htg. reflexivity.
Qed.

(** C9.  When the pre-flight quota check reports the account over quota,
    COPY fails with [OVERQUOTA] after the session refresh and that check
    alone: no lock is requested, nothing is read, the storage is unchanged. *)
Theorem onCopy_overquota_before_lock E sess mid upd st :
  env_refreshSession E = None -> env_isOverQuota E 0 = inr true ->
  onCopy E sess mid upd st =
    (inl (IMAPError "IMAP_MAILBOX_OVER_QUOTA" "OVERQUOTA"), st,
     [EvRefreshSession; EvQuotaCheck 0]).
Proof.
  intros Hrs Hq.
  unfold onCopy, validate, refreshSession, isOverQuota, bind, log, raise_opt,
    raise_sum, get_db, ret, throw.
  rewrite Hrs, Hq. reflexivity.
Qed.

(** ** The claims on concrete runs *)

(** C1 fails on the scenario it names: copying all of mailbox A (UIDs 5, 7
    and 9) into B ([uidNext] 100) succeeds, but reports [sourceUid]
    [9; 7; 5] and [destinationUid] [102; 101; 100]. *)
Lemma onCopy_scenario_not_ascending :
  fst (fst run0) = inr resp0 /\
  ~ (forall resp, fst (fst run0) = inr resp ->
       sourceUid resp = [5; 7; 9] /\ destinationUid resp = [100; 101; 102]).
Proof.
  assert (H0 : fst (fst run0) = inr resp0) by (vm_compute; reflexivity).
  split; [exact H0|]. intros H.
  destruct (H resp0 H0) as [Hs _]. discriminate.
Qed.

(** C8 fails for a negative retention: copying UID 7 into a mailbox whose
    retention is -1 succeeds and inserts a row with its expiry flag set,
    though -1 is not a positive duration. *)
Lemma onCopy_negative_retention_sets_exp :
  fst (fst runN) = inr respN /\
  ~ (forall m, In (EvStmt (SInsertMessage m)) (snd runN) ->
       (m_exp m = 1 <-> exists r, mb_retention boxN = Some r /\ 0 < r)).
Proof.
  split; [vm_compute; reflexivity|]. intros H.
  assert (Hin : exists m, In (EvStmt (SInsertMessage m)) (snd runN) /\ m_exp m = 1).
  { vm_compute. eexists. split; [right; right; right; right; right; left; reflexivity|].
    reflexivity. }
  destruct Hin as (m & Hin & He).
  apply H in Hin. apply Hin in He as (r & Hr & Hpos).
  cbn in Hr. injection Hr as <-. lia.
Qed.

Lemma onCopy_uid_arrays_descending_witness :
  onCopy env_ok sess0 1 copy_all_AB st0 = (inr resp0, snd (fst run0), snd run0) /\
  exists mb tg,
    find_mailbox_by_id (st_db st0) 1 = Some mb /\
    find_mailbox_by_path (st_db st0) (destination copy_all_AB) = Some tg /\
    let ms := select_messages (st_db st0) (build_condition mb copy_all_AB) in
    StronglySorted uid_le ms /\
    sourceUid resp0 = rev (map m_uid ms) /\
    destinationUid resp0 = rev (zseq (mb_uidNext tg) (length ms)) /\
    StronglySorted (fun x y => y <= x) (sourceUid resp0) /\
    StronglySorted (fun x y => y < x) (destinationUid resp0).
Proof.
  assert (H : onCopy env_ok sess0 1 copy_all_AB st0 = (inr resp0, snd (fst run0), snd run0))
    by (vm_compute; reflexivity).
  split; [exact H|]. exact (onCopy_uid_arrays_descending _ _ _ _ _ _ _ _ H).
Defined.

Lemma onCopy_uid_mapping_order_preserving_witness :
  onCopy env_ok sess0 1 copy_all_AB st0 = (inr resp0, snd (fst run0), snd run0) /\
  forall a da b db,
    In (a, da) (combine (sourceUid resp0) (destinationUid resp0)) ->
    In (b, db) (combine (sourceUid resp0) (destinationUid resp0)) ->
    a < b -> da < db.
Proof.
  assert (H : onCopy env_ok sess0 1 copy_all_AB st0 = (inr resp0, snd (fst run0), snd run0))
    by (vm_compute; reflexivity).
  split; [exact H|]. exact (onCopy_uid_mapping_order_preserving _ _ _ _ _ _ _ _ H).
Defined.

Lemma onCopy_empty_filter_copies_all_witness :
  messages copy_all_AB = [] /\
  find_mailbox_by_id (st_db st0) 1 = Some boxA /\
  onCopy env_ok sess0 1 copy_all_AB st0 = (inr resp0, snd (fst run0), snd run0) /\
  build_condition boxA copy_all_AB = mkCondition (mb_id boxA) None /\
  Permutation (sourceUid resp0)
    (map m_uid (filter (fun m => m_mailbox m = mb_id boxA) (Messages (st_db st0)))).
Proof.
  assert (H1 : messages copy_all_AB = []) by reflexivity.
  assert (H2 : find_mailbox_by_id (st_db st0) 1 = Some boxA) by (vm_compute; reflexivity).
  assert (H3 : onCopy env_ok sess0 1 copy_all_AB st0 = (inr resp0, snd (fst run0), snd run0))
    by (vm_compute; reflexivity).
  split; [exact H1|]. split; [exact H2|]. split; [exact H3|].
  exact (onCopy_empty_filter_copies_all _ _ _ _ _ _ _ _ _ H1 H2 H3).
Defined.

Lemma onCopy_uidNext_persisted_once_witness :
  onCopy env_ok sess0 1 copy_all_AB st0 = (inr resp0, snd (fst run0), snd run0) /\
  NoDup (map mb_id (Mailboxes (st_db st0))) /\
  exists tg r,
    find_mailbox_by_path (st_db st0) (destination copy_all_AB) = Some tg /\
    find_mailbox_by_id (st_db (snd (fst run0))) (mb_id tg) = Some r /\
    mb_uidNext r = mb_uidNext tg + Z.of_nat (length (sourceUid resp0)) /\
    uidNext_writes (snd run0) = (if bool_decide (sourceUid resp0 = []) then 0 else 1)%nat.
Proof.
  assert (H1 : onCopy env_ok sess0 1 copy_all_AB st0 = (inr resp0, snd (fst run0), snd run0))
    by (vm_compute; reflexivity).
  assert (H2 : NoDup (map mb_id (Mailboxes (st_db st0))))
    by (apply (bool_decide_unpack _); vm_compute; reflexivity).
  split; [exact H1|]. split; [exact H2|].
  exact (onCopy_uidNext_persisted_once _ _ _ _ _ _ _ _ H1 H2).
Defined.

Lemma onCopy_exp_flag_witness :
  onCopy env_ok sess0 1 copy_7_AN (mkSt dbN 0 0) = (inr respN, snd (fst runN), snd runN) /\
  find_mailbox_by_path dbN (destination copy_7_AN) = Some boxN /\
  forall m, In (EvStmt (SInsertMessage m)) (snd runN) ->
    (m_exp m = 1 <-> exists r, mb_retention boxN = Some r /\ r <> 0) /\
    (m_exp m = 0 <-> mb_retention boxN = Some 0 \/ mb_retention boxN = None).
Proof.
  assert (H1 : onCopy env_ok sess0 1 copy_7_AN (mkSt dbN 0 0) =
               (inr respN, snd (fst runN), snd runN)) by (vm_compute; reflexivity).
  assert (H2 : find_mailbox_by_path dbN (destination copy_7_AN) = Some boxN)
    by (vm_compute; reflexivity).
  split; [exact H1|]. split; [exact H2|].
  exact (onCopy_exp_flag _ _ _ _ (mkSt dbN 0 0) _ _ _ _ H1 H2).
Defined.

Lemma onCopy_batch_atomic_witness :
  onCopy env_fault2 sess0 1 copy_all_AB st0 =
    (fst (fst run_fault), snd (fst run_fault), snd run_fault) /\
  In EvRollback (snd run_fault) /\
  (~ In EvCommit (snd run_fault) -> st_db (snd (fst run_fault)) = st_db st0) /\
  (In EvRollback (snd run_fault) ->
     ~ In EvCommit (snd run_fault) /\ st_db (snd (fst run_fault)) = st_db st0 /\
     exists e, fst (fst run_fault) = inl e).
Proof.
  assert (H : onCopy env_fault2 sess0 1 copy_all_AB st0 =
              (fst (fst run_fault), snd (fst run_fault), snd run_fault))
    by (vm_compute; reflexivity).
  split; [exact H|]. split.
  - vm_compute. do 7 right. left. reflexivity.
  - exact (onCopy_batch_atomic _ _ _ _ _ _ _ _ H).
Defined.

Lemma onCopy_attachment_refcount_witness :
  onCopy env_ok sess0 1 copy_all_AB st0 = (inr resp0, snd (fst run0), snd run0) /\
  exists mb,
    find_mailbox_by_id (st_db st0) 1 = Some mb /\
    let ms := select_messages (st_db st0) (build_condition mb copy_all_AB) in
    (forall h a, Attachments (st_db st0) !! h = Some a ->
       Attachments (st_db (snd (fst run0))) !! h = Some (attachment_after env_ok ms h a) /\
       a_counter (attachment_after env_ok ms h a) =
         a_counter a + Z.of_nat (length (List.filter (refs env_ok h) ms))) /\
    (forall h, Attachments (st_db st0) !! h = None ->
       Attachments (st_db (snd (fst run0))) !! h = None) /\
    (forall s, In (EvStmt s) (snd run0) ->
       exists pre body post, snd run0 = pre ++ EvBegin :: body ++ EvCommit :: post /\
         In (EvStmt s) body /\ ~ In EvCommit body).
Proof.
  assert (H : onCopy env_ok sess0 1 copy_all_AB st0 = (inr resp0, snd (fst run0), snd run0))
    by (vm_compute; reflexivity).
  split; [exact H|]. exact (onCopy_attachment_refcount _ _ _ _ _ _ _ _ H).
Defined.

Lemma onCopy_lock_released_once_witness :
  env_acquireLock env_relfail = inr (mkLock true) /\
  lock_success (mkLock true) = true /\
  onCopy env_relfail sess0 1 copy_all_AB st0 =
    (fst (fst run_relfail), snd (fst run_relfail), snd run_relfail) /\
  In EvAcquireLock (snd run_relfail) /\
  release_count (snd run_relfail) = 1%nat /\
  (exists l1 l2, snd run_relfail = l1 ++ EvReleaseLock :: l2 /\
     Forall (fun ev => guarded_event ev = false) l2) /\
  (forall e, env_releaseLock env_relfail = Some e -> In (EvFatal e) (snd run_relfail)) /\
  (forall x y, fst (fst (onCopy (with_release env_relfail x) sess0 1 copy_all_AB st0)) =
               fst (fst (onCopy (with_release env_relfail y) sess0 1 copy_all_AB st0))) /\
  (forall mb tg s1 l2 e,
     validate env_relfail sess0 1 copy_all_AB st0 =
       (inr (mb, tg), st0, [EvRefreshSession; EvQuotaCheck 0]) ->
     guarded env_relfail sess0 mb tg copy_all_AB st0 = (inr (Some (mkLock true), inl e), s1, l2) ->
     fst (fst run_relfail) = inl e).
Proof.
  assert (H1 : env_acquireLock env_relfail = inr (mkLock true)) by reflexivity.
  assert (H2 : lock_success (mkLock true) = true) by reflexivity.
  assert (H3 : onCopy env_relfail sess0 1 copy_all_AB st0 =
               (fst (fst run_relfail), snd (fst run_relfail), snd run_relfail))
    by (vm_compute; reflexivity).
  assert (H4 : In EvAcquireLock (snd run_relfail))
    by (vm_compute; right; right; left; reflexivity).
  split; [exact H1|]. split; [exact H2|]. split; [exact H3|]. split; [exact H4|].
  exact (onCopy_lock_released_once _ _ _ _ _ _ _ _ _ H1 H2 H3 H4).
Defined.

Lemma onCopy_missing_mailbox_kinds_witness :
  env_refreshSession env_ok = None /\ env_isOverQuota env_ok 0 = inr false /\
  (find_mailbox_by_id (st_db st0) 9 = None ->
     onCopy env_ok sess0 9 copy_all_AB st0 =
       (inl (IMAPError "IMAP_MAILBOX_DOES_NOT_EXIST" "NONEXISTENT"), st0,
        [EvRefreshSession; EvQuotaCheck 0])) /\
  (forall mb, find_mailbox_by_id (st_db st0) 9 = Some mb ->
     find_mailbox_by_path (st_db st0) (destination copy_all_AB) = None ->
     onCopy env_ok sess0 9 copy_all_AB st0 =
       (inl (IMAPError "IMAP_MAILBOX_DOES_NOT_EXIST" "TRYCREATE"), st0,
        [EvRefreshSession; EvQuotaCheck 0])).
Proof.
  assert (H1 : env_refreshSession env_ok = None) by reflexivity.
  assert (H2 : env_isOverQuota env_ok 0 = inr false) by reflexivity.
  split; [exact H1|]. split; [exact H2|].
  exact (onCopy_missing_mailbox_kinds _ _ _ _ _ H1 H2).
Defined.

Lemma onCopy_overquota_before_lock_witness :
  env_refreshSession env_overquota = None /\ env_isOverQuota env_overquota 0 = inr true /\
  onCopy env_overquota sess0 1 copy_all_AB st0 =
    (inl (IMAPError "IMAP_MAILBOX_OVER_QUOTA" "OVERQUOTA"), st0,
     [EvRefreshSession; EvQuotaCheck 0]).
Proof.
  assert (H1 : env_refreshSession env_overquota = None) by reflexivity.
  assert (H2 : env_isOverQuota env_overquota 0 = inr true) by reflexivity.
  split; [exact H1|]. split; [exact H2|].
  exact (onCopy_overquota_before_lock _ _ _ _ _ H1 H2).
Defined.

(** ** The rows, entries and counters of the loop *)

Lemma newObjectId_oid E st r st' l :
  newObjectId E st = (r, st', l) -> st_oid st' = S (st_oid st).
Proof. unfold newObjectId. intros H; inversion H; reflexivity. Qed.

Lemma run_stmt_oid E s st r st' l :
  run_stmt E s st = (r, st', l) -> st_oid st' = st_oid st.
Proof.
  unfold run_stmt. destruct (env_fault E (st_nstmt st)); [|destruct (exec_stmt s (st_db st))];
    intros H; inversion H; reflexivity.
Qed.

Lemma copy_rows_full E sess mb tg ms : forall L st L' st' l,
  copy_rows E sess mb tg ms L st = (inr L', st', l) ->
  let rows := copied_rows E sess mb tg (st_oid st) (v_uidNext L) ms in
  v_entries L' = v_entries L ++ map exists_entry rows /\
  v_copiedMessages L' = v_copiedMessages L + Z.of_nat (length ms) /\
  v_copiedStorage L' = v_copiedStorage L + total_size ms /\
  Messages (st_db st') = Messages (st_db st) ++ rows /\
  Forall (fun r => existsb (fun x => m_id x =? m_id r) (Messages (st_db st)) = false) rows.
Proof.
  induction ms as [|m ms IH]; intros L st L' st' l H; simpl in H; cbv zeta.
  - inversion H; subst. simpl. rewrite !app_nil_r, !Z.add_0_r. auto.
  - binv H H1 H2; [discriminate|].
    pose proof (newObjectId_oid _ _ _ _ _ H1) as Hoid1.
    apply newObjectId_inv in H1 as (Ha & Hdb1 & ->). injection Ha as ->.
    binv H2 H3 H4; [discriminate|].
    pose proof (run_stmt_oid _ _ _ _ _ _ H3) as Hoid2.
    apply run_stmt_inr in H3 as [_ Hins]. simpl in Hins.
    destruct (existsb _ _) eqn:Hex; [discriminate|]. injection Hins as Hins.
    binv H4 H5 H6; [discriminate|].
    assert (Hmid : Messages (st_db s1) = Messages (st_db st) ++
                     [copy_row E sess mb tg (env_objectId E (st_oid st)) (v_uidNext L) m]
                   /\ st_oid s1 = S (st_oid st)).
    { case_bool_decide.
      - pose proof (run_stmt_oid _ _ _ _ _ _ H5) as Hoid3.
        apply run_stmt_inr in H5 as [_ Hup]. simpl in Hup. injection Hup as Hup.
        rewrite <- Hup, <- Hins. simpl. rewrite Hdb1. split; [reflexivity|congruence].
      - inversion H5; subst. rewrite <- Hins. simpl. rewrite Hdb1. split; [reflexivity|congruence]. }
    destruct Hmid as [Hmsg Hoid].
    destruct (IH _ _ _ _ _ H6) as (He & Hc & Hs & Hm & Hf). clear IH H6.
    rewrite Hoid in He, Hm, Hf. simpl in He, Hc, Hs, Hm, Hf.
    cbn [copied_rows map]. rewrite Hdb1 in Hex. repeat split.
    + rewrite He, <- app_assoc. reflexivity.
    + rewrite Hc. cbn [length]. lia.
    + rewrite Hs. simpl. lia.
    + rewrite Hm, Hmsg, <- app_assoc. reflexivity.
    + constructor; [exact Hex|].
      rewrite List.Forall_forall in Hf |- *. intros r Hr. specialize (Hf r Hr).
      rewrite Hmsg, existsb_app in Hf. apply orb_false_iff in Hf as [Hf _]. exact Hf.
Qed.

Lemma copied_rows_uids E sess mb tg ms : forall oid u,
  map m_uid (copied_rows E sess mb tg oid u ms) = zseq u (length ms).
Proof. induction ms as [|m ms IH]; intros oid u; simpl; [reflexivity|]. rewrite IH. reflexivity. Qed.

Lemma copied_rows_mailbox E sess mb tg ms : forall oid u,
  Forall (fun r => m_mailbox r = mb_id tg) (copied_rows E sess mb tg oid u ms).
Proof. induction ms as [|m ms IH]; intros oid u; simpl; constructor; auto. Qed.

Lemma length_copied_rows E sess mb tg ms : forall oid u,
  length (copied_rows E sess mb tg oid u ms) = length ms.
Proof. induction ms as [|m ms IH]; intros oid u; simpl; [reflexivity|]. rewrite IH. reflexivity. Qed.

Lemma copy_batch_full E sess mb tg ms st L st' l :
  copy_batch E sess mb tg ms (initial_locals tg) st = (inr L, st', l) ->
  let rows := copied_rows E sess mb tg (st_oid st) (mb_uidNext tg) ms in
  v_entries L = map exists_entry rows /\
  v_copiedMessages L = Z.of_nat (length ms) /\
  v_copiedStorage L = total_size ms /\
  Messages (st_db st') = map (set_copied (map m_id ms)) (Messages (st_db st) ++ rows) /\
  Forall (fun r => existsb (fun x => m_id x =? m_id r) (Messages (st_db st)) = false) rows.
Proof.
  unfold copy_batch. intros H.
  binv H H1 H2; [discriminate|].
  pose proof (copy_rows_inr _ _ _ _ _ _ _ _ _ _ H1) as (_ & _ & _ & Hids & _).
  apply copy_rows_full in H1 as (He & Hc & Hs & Hm & Hf).
  binv H2 H3 H4; [discriminate|].
  apply run_stmt_inr in H3 as [_ Hc3]. simpl in Hc3. injection Hc3 as Hc3.
  binv H4 H5 H6; [discriminate|].
  apply run_stmt_inr in H5 as [_ Hw]. simpl in Hw. injection Hw as Hw.
  inversion H6; subst. simpl in *. repeat split; auto.
  rewrite <- Hw. simpl. rewrite <- Hc3. simpl. rewrite Hm, Hids. reflexivity.
Qed.

Lemma select_messages_in db c m :
  In m (select_messages db c) -> In m (Messages db) /\ matches c m = true.
Proof.
  unfold select_messages. intros Hin.
  apply (Permutation_in _ (sort_by_uid_perm _)) in Hin.
  apply list_elem_of_In, list_elem_of_filter in Hin as [Hm Hin].
  split; [apply list_elem_of_In, Hin | exact Hm].
Qed.

Lemma set_copied_nil m : set_copied [] m = m.
Proof. unfold set_copied. rewrite bool_decide_false; [reflexivity|apply not_elem_of_nil]. Qed.

Lemma set_copied_fresh ids (A rows : list Message) :
  Forall (fun r => ~ In (m_id r) ids) rows ->
  map (set_copied ids) (A ++ rows) = map (set_copied ids) A ++ rows.
Proof.
  intros Hf. rewrite map_app. f_equal. induction Hf as [|r rows Hr _ IH]; [reflexivity|].
  simpl. rewrite IH. f_equal. unfold set_copied.
  rewrite bool_decide_false; [reflexivity|]. rewrite list_elem_of_In. exact Hr.
Qed.

(** The rows a successful COPY inserts take ids that no row selected had. *)
Lemma fresh_rows ms (A rows : list Message) :
  (forall m, In m ms -> In m A) ->
  Forall (fun r => existsb (fun x => m_id x =? m_id r) A = false) rows ->
  Forall (fun r => ~ In (m_id r) (map m_id ms)) rows.
Proof.
  intros Hsub Hf. rewrite List.Forall_forall in Hf |- *. intros r Hr Hin.
  specialize (Hf r Hr). apply in_map_iff in Hin as (m & Hid & Hm).
  apply Hsub in Hm. assert (Hx : existsb (fun x => m_id x =? m_id r) A = true).
  { apply existsb_exists. exists m. split; [exact Hm|]. apply Z.eqb_eq. exact Hid. }
  congruence.
Qed.

(** ** After the commit *)

Lemma post_commit_fst E upd tg L st :
  fst (post_commit E upd tg L st) =
    (if bool_decide (0 < length (v_entries L))%nat
     then match env_addEntries E with
          | Some e => inl e
          | None => inr (mkCopyResponse (mb_uidValidity tg) (v_sourceUid L) (v_destinationUid L))
          end
     else inr (mkCopyResponse (mb_uidValidity tg) (v_sourceUid L) (v_destinationUid L)), st).
Proof.
  unfold post_commit, post_quota, try_, bind, log, raise_opt, ret, throw.
  destruct ((0 <? v_copiedMessages L) && (0 <? v_copiedStorage L));
    [destruct (env_isOverQuota E (v_copiedStorage L)) as [?|[|]]|];
    destruct (env_updateStorageUsed E); case_bool_decide;
    destruct (env_addEntries E); reflexivity.
Qed.

Lemma post_commit_log E upd tg L st r st' l :
  post_commit E upd tg L st = (r, st', l) ->
  (forall d, In (EvQuotaCheck d) l <->
     0 < v_copiedMessages L /\ 0 < v_copiedStorage L /\ d = v_copiedStorage L) /\
  (0 < v_copiedMessages L -> 0 < v_copiedStorage L ->
     env_isOverQuota E (v_copiedStorage L) = inr true ->
     In (EvFatal (IMAPError "IMAP_MAILBOX_MESSAGE_EXCEEDS_QUOTA" "OVERQUOTA")) l) /\
  (forall en, In (EvAddEntries en) l <-> (0 < length (v_entries L))%nat /\ en = v_entries L) /\
  (forall p, In (EvFire p) l <->
     (0 < length (v_entries L))%nat /\ env_addEntries E = None /\ p = destination upd).
Proof.
  unfold post_commit, post_quota, try_, bind, log, raise_opt, ret, throw.
  destruct (0 <? v_copiedMessages L) eqn:Hm; destruct (0 <? v_copiedStorage L) eqn:Hs;
    rewrite ?Z.ltb_lt, ?Z.ltb_ge in Hm, Hs; simpl;
    [destruct (env_isOverQuota E (v_copiedStorage L)) as [?|[|]] eqn:Hq| | |];
    destruct (env_updateStorageUsed E); case_bool_decide as Hlen;
    destruct (env_addEntries E); intros Hx; inversion Hx; subst; clear Hx;
    simpl; intuition (subst; try congruence; try lia).
Qed.

Lemma map_set_copied_nil (A : list Message) : map (set_copied []) A = A.
Proof. rewrite (map_ext (set_copied []) id set_copied_nil), map_id. reflexivity. Qed.

Lemma not_in_batch_log ev l :
  is_stmt ev = false -> Forall (fun ev => is_stmt ev = true) l -> ~ In ev l.
Proof. exact (not_in_stmts ev l). Qed.

Lemma onCopy_success_post E sess mid upd st resp st' l :
  onCopy E sess mid upd st = (inr resp, st', l) ->
  exists mb tg lock L st1 l1 post,
    find_mailbox_by_id (st_db st) mid = Some mb /\
    find_mailbox_by_path (st_db st) (destination upd) = Some tg /\
    env_acquireLock E = inr lock /\
    post_commit E upd tg L st1 = (inr resp, st', post) /\
    let ms := select_messages (st_db st) (build_condition mb upd) in
    ((ms = [] /\ L = initial_locals tg /\ st1 = st /\
      l = [EvRefreshSession; EvQuotaCheck 0; EvAcquireLock; EvSelect]
            ++ release_log E (Some lock) ++ post) \/
     (ms <> [] /\
      copy_batch E sess mb tg ms (initial_locals tg) st = (inr L, st1, l1) /\
      l = [EvRefreshSession; EvQuotaCheck 0; EvAcquireLock; EvSelect; EvBegin]
            ++ l1 ++ EvCommit :: release_log E (Some lock) ++ post)).
Proof.
  unfold onCopy. intros H.
  binv H H1 H2; [discriminate|].
  destruct a as [mb tg].
  apply validate_inr in H1 as (-> & _ & _ & Hmb & Htg & ->).
  binv H2 H3 H4; [apply guarded_cases in H3 as [(? & _ & ? & _)|(? & ? & ? & _ & ? & _)];
                  discriminate|].
  destruct a as [lockv r2].
  binv H4 H5 H6; [discriminate|].
  apply finish_locked_inv in H5 as (-> & <- & ->).
  apply guarded_cases in H3 as [(e & _ & Hr & _)|(lk & rr & ll & Hacq & Hr & Hlb & ->)];
    inversion Hr; subst.
  apply locked_body_cases in Hlb as
    [(ee & _ & Hr2 & _)|[(_ & Hms & Hr2 & -> & ->)|(_ & Hms & lt & Ht & ->)]];
    [discriminate| |].
  - injection Hr2 as ->.
    exists mb, tg, lk, (initial_locals tg), st, [], l3.
    do 4 (split; [assumption|]). left. auto.
  - apply transaction_cases in Ht as
      [(ee & _ & Hr3 & _)|[(ee & l4 & _ & Hr3 & _)|(LL & l4 & _ & _ & Hb & Hr3 & ->)]];
      [discriminate..|].
    injection Hr3 as ->. exists mb, tg, lk, LL, s, l4, l3.
    do 4 (split; [assumption|]). right. split; [exact Hms|]. split; [exact Hb|].
    simpl. rewrite <- app_assoc. reflexivity.
Qed.

(** Events of the post-commit phase occur in a successful run only there. *)
Lemma post_events E lock l1 post ev :
  guarded_event ev = false -> ~ In ev [EvRefreshSession; EvQuotaCheck 0] ->
  (forall e, ev <> EvFatal e) -> Forall (fun ev => is_stmt ev = true) l1 ->
  (In ev ([EvRefreshSession; EvQuotaCheck 0; EvAcquireLock; EvSelect]
            ++ release_log E (Some lock) ++ post) <-> In ev post) /\
  (In ev ([EvRefreshSession; EvQuotaCheck 0; EvAcquireLock; EvSelect; EvBegin]
            ++ l1 ++ EvCommit :: release_log E (Some lock) ++ post) <-> In ev post).
Proof.
  intros Hg Hpre Hf Hl1.
  assert (Hrel : ~ In ev (release_log E (Some lock)))
    by (apply not_in_release; [intros ->; discriminate|exact Hf]).
  assert (Hst : ~ In ev l1)
    by (apply (not_in_stmts _ _); [destruct ev; try discriminate; reflexivity|exact Hl1]).
  split; split; intros Hin; try (apply in_or_app; right; try apply in_or_app; right;
                                   try right; try apply in_or_app; try right; exact Hin).
  - cbn [app In] in Hin. destruct Hin as [<-|[<-|Hin]]; [simpl in Hpre; tauto..|].
    destruct Hin as [<-|[<-|Hin]]; [discriminate..|].
    apply in_app_or in Hin as [Hin|Hin]; [contradiction|exact Hin].
  - cbn [app In] in Hin. destruct Hin as [<-|[<-|Hin]]; [simpl in Hpre; tauto..|].
    destruct Hin as [<-|[<-|[<-|Hin]]]; [discriminate..|].
    apply in_app_or in Hin as [Hin|[<-|Hin]]; [contradiction|discriminate|].
    apply in_app_or in Hin as [Hin|Hin]; [contradiction|exact Hin].
Qed.

(** ** Extra properties of [onCopy] *)

(** The [Messages] table after a successful COPY: every selected source
    row is marked [copied] and otherwise left alone, no other row changes,
    and one new row per selected row is appended, in ascending source UID
    order, with a fresh id, the destination mailbox, the next UID, and the
    fields [copy_row] sets. *)
Theorem onCopy_messages_after E sess mid upd st resp st' l :
  onCopy E sess mid upd st = (inr resp, st', l) ->
  exists mb tg,
    find_mailbox_by_id (st_db st) mid = Some mb /\
    find_mailbox_by_path (st_db st) (destination upd) = Some tg /\
    let ms := select_messages (st_db st) (build_condition mb upd) in
    Messages (st_db st') =
      map (set_copied (map m_id ms)) (Messages (st_db st)) ++
      copied_rows E sess mb tg (st_oid st) (mb_uidNext tg) ms.
Proof.
  intros H. apply onCopy_success in H as (mb & tg & lock & Hmb & Htg & _ & H).
  exists mb, tg. split; [exact Hmb|]. split; [exact Htg|]. cbv zeta.
  destruct H as (L & st1 & l1 & post & _ & Hdb & _ &
                 [(Hms & -> & -> & _)|(Hms & Hb & _)]).
  - rewrite Hdb, Hms. simpl. rewrite app_nil_r, map_set_copied_nil. reflexivity.
  - apply copy_batch_full in Hb as (_ & _ & _ & Hm & Hf). rewrite Hdb, Hm.
    apply set_copied_fresh. eapply fresh_rows; [|exact Hf].
    intros m Hin. apply select_messages_in in Hin as [Hin _]. exact Hin.
Qed.

(** The [Mailboxes] table after a successful COPY: unchanged when nothing
    was selected, otherwise only the rows with the destination's id change,
    and only in [uidNext]. *)
Theorem onCopy_mailboxes_after E sess mid upd st resp st' l :
  onCopy E sess mid upd st = (inr resp, st', l) ->
  exists mb tg,
    find_mailbox_by_id (st_db st) mid = Some mb /\
    find_mailbox_by_path (st_db st) (destination upd) = Some tg /\
    let ms := select_messages (st_db st) (build_condition mb upd) in
    Mailboxes (st_db st') =
      match ms with
      | [] => Mailboxes (st_db st)
      | _ => map (set_uidNext (mb_id tg) (mb_uidNext tg + Z.of_nat (length ms)))
               (Mailboxes (st_db st))
      end.
Proof.
  intros H. apply onCopy_success in H as (mb & tg & lock & Hmb & Htg & _ & H).
  exists mb, tg. split; [exact Hmb|]. split; [exact Htg|]. cbv zeta.
  destruct H as (L & st1 & l1 & post & _ & Hdb & _ &
                 [(Hms & -> & -> & _)|(Hms & Hb & _)]).
  - rewrite Hdb, Hms. reflexivity.
  - apply copy_batch_inr in Hb as (_ & _ & Hmbx & _). rewrite Hdb, Hmbx.
    destruct (select_messages _ _); [congruence|reflexivity].
Qed.

(** The notifications of a successful COPY: one [addEntries] call with one
    [EXISTS] entry per inserted row, in ascending destination UID order,
    and a [fire] for the destination path; neither when nothing was
    copied. *)
Theorem onCopy_notifications E sess mid upd st resp st' l :
  onCopy E sess mid upd st = (inr resp, st', l) ->
  exists mb tg,
    find_mailbox_by_id (st_db st) mid = Some mb /\
    find_mailbox_by_path (st_db st) (destination upd) = Some tg /\
    let ms := select_messages (st_db st) (build_condition mb upd) in
    let entries := map exists_entry
                     (copied_rows E sess mb tg (st_oid st) (mb_uidNext tg) ms) in
    (forall en, In (EvAddEntries en) l <-> ms <> [] /\ en = entries) /\
    (forall p, In (EvFire p) l <-> ms <> [] /\ p = destination upd) /\
    map e_uid entries = zseq (mb_uidNext tg) (length ms) /\
    Forall (fun en => e_command en = "EXISTS" /\ e_mailbox en = mb_id tg) entries.
Proof.
  intros H.
  apply onCopy_success_post in H as
    (mb & tg & lock & L & st1 & l1 & post & Hmb & Htg & _ & Hpc & Hcase).
  exists mb, tg. split; [exact Hmb|]. split; [exact Htg|]. cbv zeta.
  set (ms := select_messages (st_db st) (build_condition mb upd)) in *.
  pose proof (post_commit_log _ _ _ _ _ _ _ _ Hpc) as (_ & _ & Hadd & Hfire).
  pose proof (post_commit_fst E upd tg L st1) as Hfst. rewrite Hpc in Hfst.
  simpl in Hfst. injection Hfst as Hfst _.
  split; [|split; [|split]].
  - intros en.
    destruct Hcase as [(Hms & -> & -> & ->)|(Hms & Hb & ->)].
    + rewrite (proj1 (post_events E lock [] post (EvAddEntries en) eq_refl
                 ltac:(simpl; intuition discriminate) ltac:(intros; discriminate)
                 (List.Forall_nil _))).
      rewrite Hadd, Hms. simpl. split; [lia|]. intros [Hx _]. congruence.
    + pose proof (copy_batch_log _ _ _ _ _ _ _ _ _ _ Hb) as Hl1.
      rewrite (proj2 (post_events E lock l1 post (EvAddEntries en) eq_refl
                 ltac:(simpl; intuition discriminate) ltac:(intros; discriminate) Hl1)).
      apply copy_batch_full in Hb as (He & _). rewrite Hadd, He.
      rewrite length_map, length_copied_rows.
      destruct ms; [congruence|]. simpl. split; intros [_ Hx]; split; auto; lia.
  - intros p.
    destruct Hcase as [(Hms & -> & -> & ->)|(Hms & Hb & ->)].
    + rewrite (proj1 (post_events E lock [] post (EvFire p) eq_refl
                 ltac:(simpl; intuition discriminate) ltac:(intros; discriminate)
                 (List.Forall_nil _))).
      rewrite Hfire, Hms. simpl. split; [lia|]. intros [Hx _]. congruence.
    + pose proof (copy_batch_log _ _ _ _ _ _ _ _ _ _ Hb) as Hl1.
      rewrite (proj2 (post_events E lock l1 post (EvFire p) eq_refl
                 ltac:(simpl; intuition discriminate) ltac:(intros; discriminate) Hl1)).
      apply copy_batch_full in Hb as (He & _). rewrite Hfire.
      rewrite He, length_map, length_copied_rows in *.
      destruct ms as [|m ms']; [congruence|].
      rewrite bool_decide_true in Hfst by (simpl; lia).
      destruct (env_addEntries E); [discriminate|].
      simpl. split; [intros (_ & _ & ->); split; [discriminate|reflexivity]|].
      intros [_ ->]. split; [lia|]. auto.
  - rewrite map_map. apply copied_rows_uids.
  - apply Forall_map. eapply Forall_impl; [apply copied_rows_mailbox|].
    intros r Hr. split; [reflexivity|exact Hr].
Qed.

(** The post-flight quota check of a successful COPY: it asks about a
    non-zero delta exactly when rows were copied and their sizes add up to
    a positive total, and then about that total; an over-quota answer is
    logged as fatal, not raised. *)
Theorem onCopy_post_quota_check E sess mid upd st resp st' l :
  onCopy E sess mid upd st = (inr resp, st', l) ->
  exists mb,
    find_mailbox_by_id (st_db st) mid = Some mb /\
    let ms := select_messages (st_db st) (build_condition mb upd) in
    (forall d, d <> 0 ->
       (In (EvQuotaCheck d) l <-> ms <> [] /\ 0 < total_size ms /\ d = total_size ms)) /\
    (ms <> [] -> 0 < total_size ms -> env_isOverQuota E (total_size ms) = inr true ->
       In (EvFatal (IMAPError "IMAP_MAILBOX_MESSAGE_EXCEEDS_QUOTA" "OVERQUOTA")) l).
Proof.
  intros H.
  apply onCopy_success_post in H as
    (mb & tg & lock & L & st1 & l1 & post & Hmb & _ & _ & Hpc & Hcase).
  exists mb. split; [exact Hmb|]. cbv zeta.
  set (ms := select_messages (st_db st) (build_condition mb upd)) in *.
  pose proof (post_commit_log _ _ _ _ _ _ _ _ Hpc) as (Hq & Hover & _).
  destruct Hcase as [(Hms & -> & -> & ->)|(Hms & Hb & ->)].
  - split.
    + intros d Hd.
      rewrite (proj1 (post_events E lock [] post (EvQuotaCheck d) eq_refl
                 ltac:(simpl; intuition congruence) ltac:(intros; discriminate)
                 (List.Forall_nil _))).
      rewrite Hq. simpl. split; [lia|]. intros [Hx _]. congruence.
    + intros Hx. congruence.
  - pose proof (copy_batch_log _ _ _ _ _ _ _ _ _ _ Hb) as Hl1.
    apply copy_batch_full in Hb as (_ & Hc & Hs & _).
    assert (Hlen : 0 < v_copiedMessages L)
      by (rewrite Hc; destruct ms; [congruence|]; cbn [length]; lia).
    split.
    + intros d Hd.
      rewrite (proj2 (post_events E lock l1 post (EvQuotaCheck d) eq_refl
                 ltac:(simpl; intuition congruence) ltac:(intros; discriminate) Hl1)).
      rewrite Hq, Hs. intuition lia.
    + intros _ Hpos Hov. apply in_or_app. right.
      apply in_or_app. right. right. apply in_or_app. right.
      apply Hover; [exact Hlen|rewrite Hs; exact Hpos|rewrite Hs; exact Hov].
Qed.

Lemma onCopy_split E sess mid upd st :
  onCopy E sess mid upd st =
  bind (through_release E sess mid upd) (fun p => post_commit E upd (fst p) (snd p)) st.
Proof.
  unfold onCopy, through_release, bind.
  destruct (validate E sess mid upd st) as [[[e|[mb tg]] s1] l1]; [reflexivity|].
  destruct (guarded E sess mb tg upd s1) as [[[e|[lockv r]] s2] l2];
    [rewrite ?app_nil_r; reflexivity|].
  destruct (finish_locked E lockv r s2) as [[[e|L] s3] l3]; [reflexivity|].
  unfold ret. simpl. destruct (post_commit E upd tg L s3) as [[r4 s4] l4].
  rewrite !app_nil_r, !app_assoc. reflexivity.
Qed.

Lemma through_release_with_post E q u sess mid upd :
  through_release (with_post E q u) sess mid upd = through_release E sess mid upd.
Proof. reflexivity. Qed.



(** Neither the post-flight quota check (its answer or its failure) nor a
    failed [updateStorageUsed] changes what COPY returns or leaves in the
    storage. *)
Theorem onCopy_post_failures_ignored E q u sess mid upd st :
  fst (onCopy (with_post E q u) sess mid upd st) = fst (onCopy E sess mid upd st).
Proof.
  rewrite !onCopy_split, through_release_with_post. unfold bind.
  destruct (through_release E sess mid upd st) as [[[e|[tg L]] s1] l1]; [reflexivity|].
  cbn [fst snd].
  pose proof (post_commit_fst (with_post E q u) upd tg L s1) as H1.
  pose proof (post_commit_fst E upd tg L s1) as H2.
  destruct (post_commit (with_post E q u) upd tg L s1) as [[r1 s1'] l1'].
  destruct (post_commit E upd tg L s1) as [[r2 s2'] l2'].
  simpl in H1, H2 |- *. congruence.
Qed.


Lemma validate_ok E sess mid upd st mb tg :
  env_refreshSession E = None -> env_isOverQuota E 0 = inr false ->
  find_mailbox_by_id (st_db st) mid = Some mb ->
  find_mailbox_by_path (st_db st) (destination upd) = Some tg ->
  validate E sess mid upd st = (inr (mb, tg), st, [EvRefreshSession; EvQuotaCheck 0]).
Proof.
  intros H1 H2 H3 H4.
  unfold validate, refreshSession, isOverQuota, bind, log, raise_opt, raise_sum,
    get_db, ret, throw.
  rewrite H1, H2. cbn -[find_mailbox_by_id find_mailbox_by_path].
  rewrite H3, H4. reflexivity.
Qed.

(** When the selection is empty, COPY takes and releases the lock, opens
    no transaction, leaves the storage and the generators alone, skips the
    post-flight quota check and the notifier, and answers with the
    destination's [uidValidity] and two empty UID lists. *)
Theorem onCopy_empty_selection E sess mid upd st mb tg lock :
  env_refreshSession E = None -> env_isOverQuota E 0 = inr false ->
  find_mailbox_by_id (st_db st) mid = Some mb ->
  find_mailbox_by_path (st_db st) (destination upd) = Some tg ->
  env_acquireLock E = inr lock -> env_select E = None ->
  select_messages (st_db st) (build_condition mb upd) = [] ->
  onCopy E sess mid upd st =
    (inr (mkCopyResponse (mb_uidValidity tg) [] []), st,
     [EvRefreshSession; EvQuotaCheck 0; EvAcquireLock; EvSelect] ++
     release_log E (Some lock) ++
     EvUpdateStorageUsed ::
       match env_updateStorageUsed E with Some e => [EvFatal e] | None => [] end).
Proof.
  intros H1 H2 H3 H4 Hacq Hsel Hms.
  assert (Hlb : locked_body E sess mb tg upd st = (inr (initial_locals tg), st, [EvSelect])).
  { unfold locked_body, select, bind, log, raise_opt, get_db, ret.
    rewrite Hsel. cbn -[select_messages]. rewrite Hms. reflexivity. }
  assert (Hg : guarded E sess mb tg upd st =
               (inr (Some lock, inr (initial_locals tg)), st, [EvAcquireLock; EvSelect])).
  { unfold guarded, try_, acquireLock, bind, log, raise_sum, ret.
    rewrite Hacq. cbn -[locked_body]. rewrite Hlb. reflexivity. }
  assert (Hf : finish_locked E (Some lock) (inr (initial_locals tg)) st =
               (inr (initial_locals tg), st, release_log E (Some lock))).
  { destruct (finish_locked E (Some lock) (inr (initial_locals tg)) st)
      as [[r s] l] eqn:Hx.
    apply finish_locked_inv in Hx as (-> & -> & ->). reflexivity. }
  unfold onCopy.
  rewrite (bind_eq _ _ _ _ _ _ (validate_ok E sess mid upd st mb tg H1 H2 H3 H4)).
  cbv beta iota. rewrite (bind_eq _ _ _ _ _ _ Hg). cbv beta iota.
  rewrite (bind_eq _ _ _ _ _ _ Hf).
  unfold post_commit, try_, bind, log, raise_opt, ret. simpl.
  destruct (env_updateStorageUsed E); simpl; rewrite ?app_nil_r; reflexivity.
Qed.

(** When taking the lock fails, COPY fails with that error after the
    session refresh and the pre-flight quota check: no SELECT, no
    transaction, no release, no storage change. *)
Theorem onCopy_lock_acquire_failure E sess mid upd st mb tg e :
  env_refreshSession E = None -> env_isOverQuota E 0 = inr false ->
  find_mailbox_by_id (st_db st) mid = Some mb ->
  find_mailbox_by_path (st_db st) (destination upd) = Some tg ->
  env_acquireLock E = inl e ->
  onCopy E sess mid upd st = (inl e, st, [EvRefreshSession; EvQuotaCheck 0; EvAcquireLock]).
Proof.
  intros H1 H2 H3 H4 Hacq.
  assert (Hg : guarded E sess mb tg upd st = (inr (None, inl e), st, [EvAcquireLock])).
  { unfold guarded, try_, acquireLock, bind, log, raise_sum, throw, ret.
    rewrite Hacq. reflexivity. }
  unfold onCopy.
  rewrite (bind_eq _ _ _ _ _ _ (validate_ok E sess mid upd st mb tg H1 H2 H3 H4)).
  cbv beta iota. rewrite (bind_eq _ _ _ _ _ _ Hg). reflexivity.
Qed.

Lemma release_count_not_in l : release_count l = O -> ~ In EvReleaseLock l.
Proof.
  unfold release_count. intros H Hin.
  assert (Hf : In EvReleaseLock (List.filter is_release l))
    by (apply filter_In; split; [exact Hin|reflexivity]).
  destruct (List.filter is_release l); [contradiction|discriminate].
Qed.

(** [releaseLock] is never called for a lock that was not obtained or whose
    [success] is false. *)
Theorem onCopy_no_release_without_lock E sess mid upd st r st' l :
  (forall lock, env_acquireLock E = inr lock -> lock_success lock = false) ->
  onCopy E sess mid upd st = (r, st', l) ->
  ~ In EvReleaseLock l.
Proof.
  intros Hlk H.
  apply onCopy_cases in H as [(_ & Hq & _)|(mb & tg & lockv & r2 & s1 & l2 & l3 &
                                            _ & Hg & _ & Hq & -> & _)].
  - apply not_in_quiet; [reflexivity|exact Hq].
  - apply release_count_not_in.
    rewrite !release_count_app, (release_count_quiet l3 Hq).
    apply guarded_cases in Hg as [(e & _ & Hr & _ & ->)|(lock & rr & ll & Ha & Hr & Hlb & ->)];
      injection Hr as -> _; [reflexivity|].
    apply locked_body_no_release in Hlb.
    unfold release_log. rewrite (Hlk lock Ha).
    change (EvAcquireLock :: ll) with ([EvAcquireLock] ++ ll).
    rewrite release_count_app, Hlb. reflexivity.
Qed.

(** With a UID list, COPY copies exactly the rows of the source mailbox
    whose UID is in the list: its [sourceUid] array is a permutation of
    their UIDs. *)
Theorem onCopy_uid_filter E sess mid upd st resp st' l mb :
  messages upd <> [] ->
  find_mailbox_by_id (st_db st) mid = Some mb ->
  onCopy E sess mid upd st = (inr resp, st', l) ->
  Permutation (sourceUid resp)
    (map m_uid (filter (fun m => m_mailbox m = mb_id mb /\ m_uid m ∈ messages upd)
                  (Messages (st_db st)))).
Proof.
  intros Hupd Hmb H.
  assert (Hc : build_condition mb upd = mkCondition (mb_id mb) (Some (messages upd))).
  { unfold build_condition. rewrite bool_decide_true; [reflexivity|].
    destruct (messages upd); [congruence|simpl; lia]. }
  apply onCopy_arrays in H as (mb' & tg & Hmb' & _ & Hs & _).
  rewrite Hmb in Hmb'. injection Hmb' as <-.
  rewrite Hs, Hc. rewrite <- Permutation_rev. apply Permutation_map.
  unfold select_messages. rewrite sort_by_uid_perm.
  erewrite list_filter_iff; [reflexivity|].
  intros m. unfold matches. simpl. rewrite andb_true_iff, Z.eqb_eq, existsb_exists.
  rewrite list_elem_of_In. split.
  - intros [-> (u & Hu & Hx)]. apply Z.eqb_eq in Hx. subst u. auto.
  - intros [-> Hin]. split; [reflexivity|]. exists (m_uid m). split; [exact Hin|apply Z.eqb_refl].
Qed.

Lemma uid_invariant_spec db :
  uid_invariant db = true <->
  forall mb, In mb (Mailboxes db) ->
    NoDup (uids_in db (mb_id mb)) /\ Forall (fun u => u < mb_uidNext mb) (uids_in db (mb_id mb)).
Proof.
  unfold uid_invariant. rewrite forallb_forall. split; intros H mb Hin; specialize (H mb Hin).
  - apply andb_true_iff in H as [H1 H2]. apply bool_decide_eq_true in H1.
    split; [exact H1|]. apply List.Forall_forall. rewrite forallb_forall in H2.
    intros u Hu. apply Z.ltb_lt, H2, Hu.
  - destruct H as [H1 H2]. apply andb_true_iff. split; [apply bool_decide_eq_true, H1|].
    apply forallb_forall. rewrite List.Forall_forall in H2. intros u Hu. apply Z.ltb_lt, H2, Hu.
Qed.

Lemma uids_set_copied ids id (A : list Message) :
  map m_uid (List.filter (fun m => m_mailbox m =? id) (map (set_copied ids) A)) =
  map m_uid (List.filter (fun m => m_mailbox m =? id) A).
Proof.
  induction A as [|m A IH]; [reflexivity|]. simpl.
  assert (Hm : m_mailbox (set_copied ids m) = m_mailbox m /\ m_uid (set_copied ids m) = m_uid m)
    by (unfold set_copied; case_bool_decide; auto).
  destruct Hm as [-> Hu]. destruct (m_mailbox m =? id); simpl; rewrite ?Hu, IH; reflexivity.
Qed.

Lemma uids_rows_in id rows :
  Forall (fun r => m_mailbox r = id) rows ->
  List.filter (fun m => m_mailbox m =? id) rows = rows.
Proof. induction 1 as [|r rows Hr _ IH]; simpl; [reflexivity|]. rewrite Hr, Z.eqb_refl, IH. reflexivity. Qed.

Lemma uids_rows_out id id' rows :
  Forall (fun r => m_mailbox r = id') rows -> id' <> id ->
  List.filter (fun m => m_mailbox m =? id) rows = [].
Proof.
  induction 1 as [|r rows Hr _ IH]; simpl; intros Hne; [reflexivity|].
  rewrite Hr, (proj2 (Z.eqb_neq _ _) Hne). apply IH, Hne.
Qed.

Lemma zseq_lt u n x : In x (zseq u n) -> x < u + Z.of_nat n.
Proof.
  revert u. induction n as [|n IH]; simpl; intros u H; [contradiction|].
  destruct H as [<-|H]; [lia|]. apply IH in H. lia.
Qed.

Lemma NoDup_zseq u n : NoDup (zseq u n).
Proof.
  revert u. induction n as [|n IH]; simpl; intros u; [constructor|].
  apply NoDup_cons_2; [|apply IH]. rewrite list_elem_of_In. intros H.
  apply zseq_ge in H. lia.
Qed.

Lemma find_mailbox_by_path_in db p tg :
  find_mailbox_by_path db p = Some tg -> In tg (Mailboxes db).
Proof. unfold find_mailbox_by_path. intros H. apply find_some in H as [H _]. exact H. Qed.

(** A successful COPY keeps, in every mailbox, the UIDs distinct and below
    the mailbox's [uidNext], when the mailbox ids are distinct. *)
Theorem onCopy_preserves_uid_invariant E sess mid upd st resp st' l :
  NoDup (map mb_id (Mailboxes (st_db st))) ->
  uid_invariant (st_db st) = true ->
  onCopy E sess mid upd st = (inr resp, st', l) ->
  uid_invariant (st_db st') = true.
Proof.
  intros Hnd Hinv H. rewrite uid_invariant_spec in Hinv |- *.
  apply onCopy_success_post in H as (mb & tg & lock & L & st1 & l1 & post &
                                     _ & Htg & _ & Hpc & H).
  destruct (quiet_post_commit _ _ _ _ _ _ _ _ Hpc) as [-> _].
  cbv zeta in H. destruct H as [(_ & _ & -> & _)|(Hms & Hb & _)]; [exact Hinv|].
  pose proof (copy_batch_inr _ _ _ _ _ _ _ _ _ Hb) as (_ & _ & Hmbx & _).
  apply copy_batch_full in Hb as (_ & _ & _ & Hmsg & _).
  set (ms := select_messages (st_db st) (build_condition mb upd)) in *.
  assert (Huids : forall id, uids_in (st_db st1) id =
            uids_in (st_db st) id ++
            (if id =? mb_id tg then zseq (mb_uidNext tg) (length ms) else [])).
  { intros id. unfold uids_in. rewrite Hmsg, uids_set_copied, List.filter_app, map_app.
    f_equal. destruct (Z.eqb_spec id (mb_id tg)) as [->|Hne].
    - rewrite uids_rows_in by apply copied_rows_mailbox. apply copied_rows_uids.
    - rewrite (uids_rows_out _ (mb_id tg)); [reflexivity|apply copied_rows_mailbox|congruence]. }
  intros mb' Hin. rewrite Hmbx in Hin. apply in_map_iff in Hin as (x & <- & Hx).
  specialize (Hinv x Hx).
  assert (Hid : forall v, mb_id (set_uidNext (mb_id tg) v x) = mb_id x)
    by (intros v; unfold set_uidNext; case_bool_decide; reflexivity).
  rewrite Hid, Huids.
  destruct (Z.eqb_spec (mb_id x) (mb_id tg)) as [Heq|Hne].
  - assert (Hx' : x = tg).
    { apply find_mailbox_by_path_in in Htg.
      pose proof (find_mailbox_by_id_unique _ x (mb_id tg) Hnd Hx Heq) as E1.
      pose proof (find_mailbox_by_id_unique _ tg (mb_id tg) Hnd Htg eq_refl) as E2.
      congruence. }
    subst x. unfold set_uidNext. rewrite bool_decide_true by reflexivity. simpl.
    destruct Hinv as [Hnd1 Hlt1]. split.
    + apply NoDup_app. split; [exact Hnd1|]. split; [|apply NoDup_zseq].
      intros u Hu1 Hu2. rewrite list_elem_of_In in Hu1, Hu2.
      rewrite List.Forall_forall in Hlt1. apply Hlt1 in Hu1. apply zseq_ge in Hu2. lia.
    + apply List.Forall_app. split.
      * apply List.Forall_forall. intros u Hu. rewrite List.Forall_forall in Hlt1.
        apply Hlt1 in Hu. lia.
      * apply List.Forall_forall. intros u Hu. apply zseq_lt in Hu. lia.
  - rewrite app_nil_r. unfold set_uidNext. rewrite bool_decide_false by exact Hne.
    exact Hinv.
Qed.

Lemma onCopy_messages_after_witness :
  onCopy env_ok sess0 1 copy_all_AB st0 = (inr resp0, snd (fst run0), snd run0) /\
  exists mb tg,
    find_mailbox_by_id (st_db st0) 1 = Some mb /\
    find_mailbox_by_path (st_db st0) (destination copy_all_AB) = Some tg /\
    let ms := select_messages (st_db st0) (build_condition mb copy_all_AB) in
    Messages (st_db (snd (fst run0))) =
      map (set_copied (map m_id ms)) (Messages (st_db st0)) ++
      copied_rows env_ok sess0 mb tg (st_oid st0) (mb_uidNext tg) ms.
Proof.
  assert (H : onCopy env_ok sess0 1 copy_all_AB st0 = (inr resp0, snd (fst run0), snd run0))
    by (vm_compute; reflexivity).
  split; [exact H|]. exact (onCopy_messages_after _ _ _ _ _ _ _ _ H).
Defined.

Lemma onCopy_mailboxes_after_witness :
  onCopy env_ok sess0 1 copy_all_AB st0 = (inr resp0, snd (fst run0), snd run0) /\
  exists mb tg,
    find_mailbox_by_id (st_db st0) 1 = Some mb /\
    find_mailbox_by_path (st_db st0) (destination copy_all_AB) = Some tg /\
    let ms := select_messages (st_db st0) (build_condition mb copy_all_AB) in
    Mailboxes (st_db (snd (fst run0))) =
      match ms with
      | [] => Mailboxes (st_db st0)
      | _ => map (set_uidNext (mb_id tg) (mb_uidNext tg + Z.of_nat (length ms)))
               (Mailboxes (st_db st0))
      end.
Proof.
  assert (H : onCopy env_ok sess0 1 copy_all_AB st0 = (inr resp0, snd (fst run0), snd run0))
    by (vm_compute; reflexivity).
  split; [exact H|]. exact (onCopy_mailboxes_after _ _ _ _ _ _ _ _ H).
Defined.

Lemma onCopy_notifications_witness :
  onCopy env_ok sess0 1 copy_all_AB st0 = (inr resp0, snd (fst run0), snd run0) /\
  exists mb tg,
    find_mailbox_by_id (st_db st0) 1 = Some mb /\
    find_mailbox_by_path (st_db st0) (destination copy_all_AB) = Some tg /\
    let ms := select_messages (st_db st0) (build_condition mb copy_all_AB) in
    let entries := map exists_entry
                     (copied_rows env_ok sess0 mb tg (st_oid st0) (mb_uidNext tg) ms) in
    (forall en, In (EvAddEntries en) (snd run0) <-> ms <> [] /\ en = entries) /\
    (forall p, In (EvFire p) (snd run0) <-> ms <> [] /\ p = destination copy_all_AB) /\
    map e_uid entries = zseq (mb_uidNext tg) (length ms) /\
    Forall (fun en => e_command en = "EXISTS" /\ e_mailbox en = mb_id tg) entries.
Proof.
  assert (H : onCopy env_ok sess0 1 copy_all_AB st0 = (inr resp0, snd (fst run0), snd run0))
    by (vm_compute; reflexivity).
  split; [exact H|]. exact (onCopy_notifications _ _ _ _ _ _ _ _ H).
Defined.

Lemma onCopy_post_quota_check_witness :
  onCopy env_ok sess0 1 copy_all_AB st0 = (inr resp0, snd (fst run0), snd run0) /\
  exists mb,
    find_mailbox_by_id (st_db st0) 1 = Some mb /\
    let ms := select_messages (st_db st0) (build_condition mb copy_all_AB) in
    (forall d, d <> 0 ->
       (In (EvQuotaCheck d) (snd run0) <-> ms <> [] /\ 0 < total_size ms /\ d = total_size ms)) /\
    (ms <> [] -> 0 < total_size ms -> env_isOverQuota env_ok (total_size ms) = inr true ->
       In (EvFatal (IMAPError "IMAP_MAILBOX_MESSAGE_EXCEEDS_QUOTA" "OVERQUOTA")) (snd run0)).
Proof.
  assert (H : onCopy env_ok sess0 1 copy_all_AB st0 = (inr resp0, snd (fst run0), snd run0))
    by (vm_compute; reflexivity).
  split; [exact H|]. exact (onCopy_post_quota_check _ _ _ _ _ _ _ _ H).
Defined.


Lemma onCopy_empty_selection_witness :
  env_refreshSession env_ok = None /\ env_isOverQuota env_ok 0 = inr false /\
  find_mailbox_by_id (st_db st0) 1 = Some boxA /\
  find_mailbox_by_path (st_db st0) (destination copy_42_AB) = Some boxB /\
  env_acquireLock env_ok = inr (mkLock true) /\ env_select env_ok = None /\
  select_messages (st_db st0) (build_condition boxA copy_42_AB) = [] /\
  onCopy env_ok sess0 1 copy_42_AB st0 =
    (inr (mkCopyResponse (mb_uidValidity boxB) [] []), st0,
     [EvRefreshSession; EvQuotaCheck 0; EvAcquireLock; EvSelect] ++
     release_log env_ok (Some (mkLock true)) ++
     EvUpdateStorageUsed ::
       match env_updateStorageUsed env_ok with Some e => [EvFatal e] | None => [] end).
Proof.
  assert (H1 : env_refreshSession env_ok = None) by reflexivity.
  assert (H2 : env_isOverQuota env_ok 0 = inr false) by reflexivity.
  assert (H3 : find_mailbox_by_id (st_db st0) 1 = Some boxA) by (vm_compute; reflexivity).
  assert (H4 : find_mailbox_by_path (st_db st0) (destination copy_42_AB) = Some boxB)
    by (vm_compute; reflexivity).
  assert (H5 : env_acquireLock env_ok = inr (mkLock true)) by reflexivity.
  assert (H6 : env_select env_ok = None) by reflexivity.
  assert (H7 : select_messages (st_db st0) (build_condition boxA copy_42_AB) = [])
    by (vm_compute; reflexivity).
  do 7 (split; [assumption|]).
  exact (onCopy_empty_selection _ _ _ _ _ _ _ _ H1 H2 H3 H4 H5 H6 H7).
Defined.

Lemma onCopy_lock_acquire_failure_witness :
  env_refreshSession env_lockfail = None /\ env_isOverQuota env_lockfail 0 = inr false /\
  find_mailbox_by_id (st_db st0) 1 = Some boxA /\
  find_mailbox_by_path (st_db st0) (destination copy_all_AB) = Some boxB /\
  env_acquireLock env_lockfail = inl (LockError "ETIMEOUT") /\
  onCopy env_lockfail sess0 1 copy_all_AB st0 =
    (inl (LockError "ETIMEOUT"), st0, [EvRefreshSession; EvQuotaCheck 0; EvAcquireLock]).
Proof.
  assert (H1 : env_refreshSession env_lockfail = None) by reflexivity.
  assert (H2 : env_isOverQuota env_lockfail 0 = inr false) by reflexivity.
  assert (H3 : find_mailbox_by_id (st_db st0) 1 = Some boxA) by (vm_compute; reflexivity).
  assert (H4 : find_mailbox_by_path (st_db st0) (destination copy_all_AB) = Some boxB)
    by (vm_compute; reflexivity).
  assert (H5 : env_acquireLock env_lockfail = inl (LockError "ETIMEOUT")) by reflexivity.
  do 5 (split; [assumption|]).
  exact (onCopy_lock_acquire_failure _ _ _ _ _ _ _ _ H1 H2 H3 H4 H5).
Defined.

Lemma onCopy_no_release_without_lock_witness :
  (forall lock, env_acquireLock env_nolock = inr lock -> lock_success lock = false) /\
  onCopy env_nolock sess0 1 copy_all_AB st0 =
    (fst (fst (onCopy env_nolock sess0 1 copy_all_AB st0)),
     snd (fst (onCopy env_nolock sess0 1 copy_all_AB st0)),
     snd (onCopy env_nolock sess0 1 copy_all_AB st0)) /\
  ~ In EvReleaseLock (snd (onCopy env_nolock sess0 1 copy_all_AB st0)).
Proof.
  assert (H1 : forall lock, env_acquireLock env_nolock = inr lock -> lock_success lock = false)
    by (intros lock Hl; injection Hl as <-; reflexivity).
  assert (H2 : onCopy env_nolock sess0 1 copy_all_AB st0 =
    (fst (fst (onCopy env_nolock sess0 1 copy_all_AB st0)),
     snd (fst (onCopy env_nolock sess0 1 copy_all_AB st0)),
     snd (onCopy env_nolock sess0 1 copy_all_AB st0))) by (vm_compute; reflexivity).
  split; [exact H1|]. split; [exact H2|].
  exact (onCopy_no_release_without_lock _ _ _ _ _ _ _ _ H1 H2).
Defined.

Lemma onCopy_uid_filter_witness :
  messages copy_59_AB <> [] /\
  find_mailbox_by_id (st_db st0) 1 = Some boxA /\
  onCopy env_ok sess0 1 copy_59_AB st0 =
    (inr (mkCopyResponse 222 [9; 5] [101; 100]),
     snd (fst (onCopy env_ok sess0 1 copy_59_AB st0)),
     snd (onCopy env_ok sess0 1 copy_59_AB st0)) /\
  Permutation (sourceUid (mkCopyResponse 222 [9; 5] [101; 100]))
    (map m_uid (filter (fun m => m_mailbox m = mb_id boxA /\ m_uid m ∈ messages copy_59_AB)
                  (Messages (st_db st0)))).
Proof.
  assert (H1 : messages copy_59_AB <> []) by discriminate.
  assert (H2 : find_mailbox_by_id (st_db st0) 1 = Some boxA) by (vm_compute; reflexivity).
  assert (H3 : onCopy env_ok sess0 1 copy_59_AB st0 =
    (inr (mkCopyResponse 222 [9; 5] [101; 100]),
     snd (fst (onCopy env_ok sess0 1 copy_59_AB st0)),
     snd (onCopy env_ok sess0 1 copy_59_AB st0))) by (vm_compute; reflexivity).
  split; [exact H1|]. split; [exact H2|]. split; [exact H3|].
  exact (onCopy_uid_filter _ _ _ _ _ _ _ _ _ H1 H2 H3).
Defined.

Lemma onCopy_preserves_uid_invariant_witness :
  NoDup (map mb_id (Mailboxes (st_db st0))) /\
  uid_invariant (st_db st0) = true /\
  onCopy env_ok sess0 1 copy_all_AB st0 = (inr resp0, snd (fst run0), snd run0) /\
  uid_invariant (st_db (snd (fst run0))) = true.
Proof.
  assert (H1 : NoDup (map mb_id (Mailboxes (st_db st0))))
    by (apply (bool_decide_unpack _); vm_compute; reflexivity).
  assert (H2 : uid_invariant (st_db st0) = true) by (vm_compute; reflexivity).
  assert (H3 : onCopy env_ok sess0 1 copy_all_AB st0 = (inr resp0, snd (fst run0), snd run0))
    by (vm_compute; reflexivity).
  split; [exact H1|]. split; [exact H2|]. split; [exact H3|].
  exact (onCopy_preserves_uid_invariant _ _ _ _ _ _ _ _ H1 H2 H3).
Defined.
